(** * DecentralizedLoadBalancerSimulator: a shallow embedding

    The development follows the C++ sources: [Task], [Message], [PeerNode]
    and [NetworkManager].  A [PeerNode] is a record of the fields the
    methods read and write; the [NetworkManager] registry stores raw
    [PeerNode*] pointers, which are addresses into a store of nodes, so that
    two registered ids may alias one node.  Each thread body is one
    sequential step on that store (the loop body run under its locks);
    the Logger sink, the sleeps and the condition variables are left out. *)

From Stdlib Require Import ZArith Lia.
From stdpp Require Import functions sorting.
From stdpp Require Import list gmap strings pretty.

Local Open Scope Z_scope.

(** ** Machine integers and pointers *)

(** [static_cast<int>] of a [size_t]: the value modulo 2^32, read as a
    signed 32-bit integer. *)
Definition static_cast_int (n : nat) : Z :=
  let z := Z.of_nat n mod 2 ^ 32 in
  if decide (z < 2 ^ 31) then z else z - 2 ^ 32.

(** [std::shared_ptr<T>]: [None] is the null pointer.  The pointee is never
    mutated after construction, so sharing is not observable. *)
Definition shared_ptr (T : Type) : Type := option T.

(** The test [if (p)] on a pointer. *)
Definition non_null {T} (p : shared_ptr T) : bool :=
  match p with Some _ => true | None => false end.

(** A [PeerNode*]: the address of a node in the store.  The store is total,
    so a registered pointer is never null or dangling. *)
Definition addr : Type := nat.

(** ** std::map<int, V>

    A finite map with unique keys.  Range-for over a [std::map] visits the
    entries in ascending key order. *)
Definition key_le {V} (p q : Z * V) : Prop := p.1 ≤ q.1.

Global Instance key_le_dec {V} (p q : Z * V) : Decision (key_le p q).
Proof. unfold key_le. apply _. Defined.

Global Instance key_le_total {V} : Total (@key_le V).
Proof. intros p q. unfold key_le. lia. Qed.

Global Instance key_le_trans {V} : Transitive (@key_le V).
Proof. intros p q r. unfold key_le. lia. Qed.

Definition key_lt {V} (p q : Z * V) : Prop := p.1 < q.1.

Definition map_iter {V} (m : gmap Z V) : list (Z * V) :=
  merge_sort key_le (map_to_list m).

(** ** Task.h / Task.cpp *)
Module Task.
Record t : Type := new_at {
  id_ : Z;
  complexity_ : Z;
  creation_time_ : Z
}.

Definition getId (task : t) : Z := id_ task.
Definition getComplexity (task : t) : Z := complexity_ task.
Definition getCreationTime (task : t) : Z := creation_time_ task.

Global Instance task_eq_dec : EqDecision t.
Proof. solve_decision. Defined.
End Task.

(** ** Message.h / Message.cpp *)
Inductive MessageType : Type :=
  | LOAD_UPDATE
  | TASK_REQUEST
  | TASK_TRANSFER
  | PEER_DISCOVERY.

Global Instance MessageType_eq_dec : EqDecision MessageType.
Proof. solve_decision. Defined.

Module Message.
Record t : Type := mk {
  type_ : MessageType;
  sender_id_ : Z;
  receiver_id_ : Z;
  load_value_ : Z;
  task_ : shared_ptr Task.t
}.

(** [Message::Message(type, sender_id, receiver_id)] *)
Definition new (type : MessageType) (sender_id receiver_id : Z) : t :=
  {| type_ := type; sender_id_ := sender_id; receiver_id_ := receiver_id;
     load_value_ := 0; task_ := None |}.

Definition getType (m : t) : MessageType := type_ m.
Definition getSenderId (m : t) : Z := sender_id_ m.
Definition getReceiverId (m : t) : Z := receiver_id_ m.

Definition setLoadValue (load : Z) (m : t) : t :=
  {| type_ := type_ m; sender_id_ := sender_id_ m;
     receiver_id_ := receiver_id_ m; load_value_ := load; task_ := task_ m |}.

Definition getLoadValue (m : t) : Z := load_value_ m.

Definition setTask (task : shared_ptr Task.t) (m : t) : t :=
  {| type_ := type_ m; sender_id_ := sender_id_ m;
     receiver_id_ := receiver_id_ m; load_value_ := load_value_ m;
     task_ := task |}.

Definition getTask (m : t) : shared_ptr Task.t := task_ m.

Global Instance message_eq_dec : EqDecision t.
Proof. solve_decision. Defined.

(** The accessors as section 4.2 of the specification words them: a
    payload that does not belong to the variant is answered by absence.
    These two are not the code; they are what the code is compared with. *)
Definition strict_getLoadValue (m : t) : option Z :=
  match type_ m with
  | LOAD_UPDATE => Some (load_value_ m)
  | _ => None
  end.

Definition strict_getTask (m : t) : option Task.t :=
  match type_ m with
  | TASK_TRANSFER => task_ m
  | _ => None
  end.
End Message.

(** ** PeerNode.h / PeerNode.cpp: the node-local part *)
Record PeerNode : Type := mkPeerNode {
  id_ : Z;
  load_threshold_ : Z;
  tasks_processed_ : Z;
  task_queue_ : list (shared_ptr Task.t);
  peer_loads_ : gmap Z Z;
  peers_ : list Z;
  message_queue_ : list Message.t;
  running_ : bool;
  (** [network_manager_ != nullptr]; the store has one NetworkManager. *)
  network_manager_ : bool
}.

(** [PeerNode::PeerNode(id, load_threshold, network_manager)] *)
Definition PeerNode_new (id load_threshold : Z) (network_manager : bool)
  : PeerNode :=
  {| id_ := id; load_threshold_ := load_threshold; tasks_processed_ := 0;
     task_queue_ := []; peer_loads_ := ∅; peers_ := [];
     message_queue_ := []; running_ := false;
     network_manager_ := network_manager |}.

Definition set_task_queue (q : list (shared_ptr Task.t)) (n : PeerNode)
  : PeerNode :=
  {| id_ := id_ n; load_threshold_ := load_threshold_ n;
     tasks_processed_ := tasks_processed_ n; task_queue_ := q;
     peer_loads_ := peer_loads_ n; peers_ := peers_ n;
     message_queue_ := message_queue_ n; running_ := running_ n;
     network_manager_ := network_manager_ n |}.

Definition set_peer_loads (pl : gmap Z Z) (n : PeerNode) : PeerNode :=
  {| id_ := id_ n; load_threshold_ := load_threshold_ n;
     tasks_processed_ := tasks_processed_ n; task_queue_ := task_queue_ n;
     peer_loads_ := pl; peers_ := peers_ n;
     message_queue_ := message_queue_ n; running_ := running_ n;
     network_manager_ := network_manager_ n |}.

Definition set_peers (ps : list Z) (n : PeerNode) : PeerNode :=
  {| id_ := id_ n; load_threshold_ := load_threshold_ n;
     tasks_processed_ := tasks_processed_ n; task_queue_ := task_queue_ n;
     peer_loads_ := peer_loads_ n; peers_ := ps;
     message_queue_ := message_queue_ n; running_ := running_ n;
     network_manager_ := network_manager_ n |}.

Definition set_message_queue (q : list Message.t) (n : PeerNode) : PeerNode :=
  {| id_ := id_ n; load_threshold_ := load_threshold_ n;
     tasks_processed_ := tasks_processed_ n; task_queue_ := task_queue_ n;
     peer_loads_ := peer_loads_ n; peers_ := peers_ n;
     message_queue_ := q; running_ := running_ n;
     network_manager_ := network_manager_ n |}.

Definition set_running (b : bool) (n : PeerNode) : PeerNode :=
  {| id_ := id_ n; load_threshold_ := load_threshold_ n;
     tasks_processed_ := tasks_processed_ n; task_queue_ := task_queue_ n;
     peer_loads_ := peer_loads_ n; peers_ := peers_ n;
     message_queue_ := message_queue_ n; running_ := b;
     network_manager_ := network_manager_ n |}.

(** [PeerNode::start] and [PeerNode::stop], as far as the flag goes: the
    exchange on [running_]; spawning and joining the threads is not part of
    the node's data. *)
Definition start (n : PeerNode) : PeerNode :=
  if running_ n then n else set_running true n.

Definition stop (n : PeerNode) : PeerNode :=
  if running_ n then set_running false n else n.

(** [n'] differs from [n] in its inbox at most. *)
Definition inbox_only (n n' : PeerNode) : Prop :=
  n' = set_message_queue (message_queue_ n') n.

(** [PeerNode::addTask]: push at the back of the FIFO.  The log line that
    follows the push dereferences the task, so the call is defined for a
    non-null task only. *)
Definition addTask (task : shared_ptr Task.t) (n : PeerNode) : PeerNode :=
  set_task_queue (task_queue_ n ++ [task]) n.

(** [PeerNode::getCurrentLoad] *)
Definition getCurrentLoad (n : PeerNode) : Z :=
  static_cast_int (length (task_queue_ n)).

Definition getTasksProcessed (n : PeerNode) : Z := tasks_processed_ n.

(** [PeerNode::handleMessage]: push at the back of the inbox.  The body
    never reads [running_]. *)
Definition handleMessage (message : Message.t) (n : PeerNode) : PeerNode :=
  set_message_queue (message_queue_ n ++ [message]) n.

(** [PeerNode::addPeer]: [std::find] then [push_back]. *)
Definition addPeer (peer_id : Z) (n : PeerNode) : PeerNode :=
  if decide (peer_id ∈ peers_ n) then n
  else set_peers (peers_ n ++ [peer_id]) n.

Definition getPeers (n : PeerNode) : list Z := peers_ n.
Definition getId (n : PeerNode) : Z := id_ n.

(** The body of the range-for in [selectBestPeer], on the pair
    [(best_peer, min_load)]. *)
Definition selectBestPeer_step (acc : Z * Z) (entry : Z * Z) : Z * Z :=
  let '(best_peer, min_load) := acc in
  let '(peer_id, load) := entry in
  if decide (load < min_load) then (peer_id, load) else (best_peer, min_load).

(** [selectBestPeer] on a peer-load map, with the value [getCurrentLoad()]
    returned given as [current_load]. *)
Definition selectBestPeer_at (peer_loads : gmap Z Z) (current_load : Z) : Z :=
  if decide (peer_loads = ∅) then -1
  else (foldl selectBestPeer_step (-1, current_load) (map_iter peer_loads)).1.

(** [cheapest_peer peer_loads d r]: [r] is recorded with a depth below [d],
    no entry is recorded with a smaller depth, and no entry with the same
    depth has a smaller id. *)
Definition cheapest_peer (peer_loads : gmap Z Z) (d r : Z) : Prop :=
  ∃ load, peer_loads !! r = Some load ∧ load < d ∧
    (∀ k v, peer_loads !! k = Some v → load ≤ v) ∧
    (∀ k, peer_loads !! k = Some load → r ≤ k).

(** [PeerNode::selectBestPeer] *)
Definition selectBestPeer (n : PeerNode) : Z :=
  selectBestPeer_at (peer_loads_ n) (getCurrentLoad n).

(** The [switch] of [messageProcessorLoop] on one dequeued message. *)
Definition dispatchMessage (message : Message.t) (n : PeerNode) : PeerNode :=
  match Message.getType message with
  | LOAD_UPDATE =>
      let peer_id := Message.getSenderId message in
      let load := Message.getLoadValue message in
      set_peer_loads (<[peer_id := load]> (peer_loads_ n)) n
  | TASK_TRANSFER =>
      let task := Message.getTask message in
      if non_null task then addTask task n else n
  | PEER_DISCOVERY => addPeer (Message.getSenderId message) n
  | TASK_REQUEST => n
  end.

(** One turn of [messageProcessorLoop] once the wait has returned: with an
    empty inbox the wait only returns on shutdown and the loop breaks. *)
Definition messageProcessorStep (n : PeerNode) : PeerNode :=
  match message_queue_ n with
  | [] => n
  | message :: rest => dispatchMessage message (set_message_queue rest n)
  end.

(** ** NetworkManager.h / NetworkManager.cpp *)
Record NetworkManager : Type := mkNetworkManager {
  nodes_ : gmap Z addr
}.

(** The store: the registry and the nodes its pointers refer to. *)
Record World : Type := mkWorld {
  network : NetworkManager;
  heap : addr → PeerNode
}.

Definition with_node (a : addr) (f : PeerNode → PeerNode) (w : World) : World :=
  {| network := network w; heap := <[a := f (heap w a)]> (heap w) |}.

(** [NetworkManager::registerNode] *)
Definition registerNode (node_id : Z) (node : addr) (w : World) : World :=
  {| network := {| nodes_ := <[node_id := node]> (nodes_ (network w)) |};
     heap := heap w |}.

(** [NetworkManager::sendMessage]: an unknown receiver drops the message;
    nothing is returned to the caller either way. *)
Definition sendMessage (message : Message.t) (w : World) : World :=
  match nodes_ (network w) !! Message.getReceiverId message with
  | Some receiver => with_node receiver (handleMessage message) w
  | None => w
  end.

(** The entries [broadcastMessage] keeps while it holds the lock. *)
Definition broadcast_targets (sender_id : Z) (nm : NetworkManager)
  : list (Z * addr) :=
  filter (λ entry, entry.1 ≠ sender_id) (map_iter (nodes_ nm)).

(** The local vector [receivers] of [broadcastMessage]. *)
Definition receivers (sender_id : Z) (nm : NetworkManager) : list addr :=
  (broadcast_targets sender_id nm).*2.

(** [NetworkManager::broadcastMessage] *)
Definition broadcastMessage (sender_id : Z) (message : Message.t) (w : World)
  : World :=
  foldl (λ w' receiver, with_node receiver (handleMessage message) w')
        w (receivers sender_id (network w)).

(** [NetworkManager::getAllNodeIds] *)
Definition getAllNodeIds (nm : NetworkManager) : list Z :=
  (map_iter (nodes_ nm)).*1.

(** ** PeerNode.cpp: the part that talks to the NetworkManager *)

(** The calls a node makes on its NetworkManager, in order. *)
Inductive NetCall : Type :=
  | CallBroadcast (sender_id : Z) (message : Message.t)
  | CallSend (message : Message.t).

(** [PeerNode::offloadTask], run by the node at address [self]. *)
Definition offloadTask (self : addr) (task : shared_ptr Task.t) (w : World)
  : World * list NetCall :=
  let n := heap w self in
  let best_peer := selectBestPeer n in
  if bool_decide (best_peer ≠ -1) && network_manager_ n then
    let transfer_msg :=
      Message.setTask task (Message.new TASK_TRANSFER (id_ n) best_peer) in
    (sendMessage transfer_msg w, [CallSend transfer_msg])
  else
    (with_node self (addTask task) w, []).

(** The gossip half of a [loadMonitorLoop] turn. *)
Definition gossip (self : addr) (current_load : Z) (w : World)
  : World * list NetCall :=
  let n := heap w self in
  if network_manager_ n then
    let load_msg :=
      Message.setLoadValue current_load
        (Message.new LOAD_UPDATE (id_ n) (-1)) in
    (broadcastMessage (id_ n) load_msg w, [CallBroadcast (id_ n) load_msg])
  else (w, []).

(** One turn of [loadMonitorLoop] after the sleep. *)
Definition loadMonitorTick (self : addr) (w : World) : World * list NetCall :=
  let n := heap w self in
  if negb (running_ n) then (w, [])
  else
    let current_load := getCurrentLoad n in
    let '(w1, calls1) := gossip self current_load w in
    if decide (current_load > load_threshold_ n) then
      match task_queue_ (heap w1 self) with
      | [] => (w1, calls1)
      | task :: rest =>
          let w2 := with_node self (set_task_queue rest) w1 in
          if non_null task then
            let '(w3, calls3) := offloadTask self task w2 in
            (w3, calls1 ++ calls3)
          else (w2, calls1)
      end
    else (w1, calls1).

(** The messages passed to [sendMessage] among the calls of a turn. *)
Definition sent_messages (calls : list NetCall) : list Message.t :=
  omap (λ c, match c with
             | CallSend m => Some m
             | CallBroadcast _ _ => None
             end) calls.

(** ** PeerNode.cpp: the worker loop *)

(** Arithmetic on [std::atomic<int>]: the result modulo 2^32, read as a
    signed 32-bit integer. *)
Definition wrap_int (z : Z) : Z :=
  let r := z mod 2 ^ 32 in
  if decide (r < 2 ^ 31) then r else r - 2 ^ 32.

Definition set_tasks_processed (c : Z) (n : PeerNode) : PeerNode :=
  {| id_ := id_ n; load_threshold_ := load_threshold_ n;
     tasks_processed_ := c; task_queue_ := task_queue_ n;
     peer_loads_ := peer_loads_ n; peers_ := peers_ n;
     message_queue_ := message_queue_ n; running_ := running_ n;
     network_manager_ := network_manager_ n |}.

(** What one pass through the body of [workerLoop] comes to: the wait does
    not return (empty queue, running), the loop breaks (empty queue,
    stopped), or the head of the queue is popped and, unless it is null,
    executed and counted. *)
Inductive WorkerTurn : Type :=
  | WorkerWaits
  | WorkerBreaks
  | WorkerRan (n' : PeerNode) (executed : shared_ptr Task.t).

Definition workerTurn (n : PeerNode) : WorkerTurn :=
  match task_queue_ n with
  | [] => if running_ n then WorkerWaits else WorkerBreaks
  | task :: rest =>
      let n' := set_task_queue rest n in
      if non_null task then
        WorkerRan (set_tasks_processed (wrap_int (tasks_processed_ n' + 1)) n')
                  task
      else WorkerRan n' None
  end.

Inductive LoopEnd : Type :=
  | LoopExited
  | LoopWaits
  | LoopOutOfFuel.

(** [PeerNode::workerLoop] run by one worker with nobody else touching the
    node: the node it leaves, the tasks it executed in order, and how it
    ended. *)
Fixpoint workerLoop (fuel : nat) (n : PeerNode)
  : PeerNode * list Task.t * LoopEnd :=
  match fuel with
  | O => (n, [], LoopOutOfFuel)
  | S fuel' =>
      if negb (running_ n) then (n, [], LoopExited)
      else
        match workerTurn n with
        | WorkerWaits => (n, [], LoopWaits)
        | WorkerBreaks => (n, [], LoopExited)
        | WorkerRan n' task =>
            let '(n'', executed, e) := workerLoop fuel' n' in
            (n'', option_list task ++ executed, e)
        end
  end.

(** ** PeerNode.cpp: the threads of a node *)

(** The thread members: the size of [worker_threads_] (its elements are
    joinable from [emplace_back] to [join]) and whether each of the two
    single threads is joinable. *)
Record Threads : Type := mkThreads {
  worker_threads_ : nat;
  load_monitor_thread_ : bool;
  message_processor_thread_ : bool
}.

Definition no_threads : Threads :=
  {| worker_threads_ := 0; load_monitor_thread_ := false;
     message_processor_thread_ := false |}.

(** [PeerNode::start] with its threads.  Move-assigning to a [std::thread]
    that is joinable calls [std::terminate]: [None]. *)
Definition startThreads (p : PeerNode * Threads) : option (PeerNode * Threads) :=
  let '(n, th) := p in
  if running_ n then Some (n, th)
  else if load_monitor_thread_ th || message_processor_thread_ th then None
  else Some (set_running true n,
             {| worker_threads_ := worker_threads_ th + 2;
                load_monitor_thread_ := true;
                message_processor_thread_ := true |}).

(** [PeerNode::stop] with its threads: every joinable thread is joined and
    the vector is cleared. *)
Definition stopThreads (p : PeerNode * Threads) : PeerNode * Threads :=
  let '(n, th) := p in
  if running_ n then (set_running false n, no_threads) else (n, th).

(** The threads a node has are those of a running node, or none. *)
Definition threads_match (p : PeerNode * Threads) : Prop :=
  p.2 = if running_ p.1
        then {| worker_threads_ := 2; load_monitor_thread_ := true;
                message_processor_thread_ := true |}
        else no_threads.

Inductive LifecycleCall : Type :=
  | DoStart
  | DoStop.

(** A sequence of [start] and [stop] calls on one node. *)
Fixpoint lifecycle (calls : list LifecycleCall) (p : PeerNode * Threads)
  : option (PeerNode * Threads) :=
  match calls with
  | [] => Some p
  | DoStart :: calls' =>
      match startThreads p with
      | Some p' => lifecycle calls' p'
      | None => None
      end
  | DoStop :: calls' => lifecycle calls' (stopThreads p)
  end.

(** ** PeerNode.cpp: the message pump *)

(** [PeerNode::messageProcessorLoop] run by the pump thread with nobody
    else touching the node: the node it leaves and how it ended.  A node
    that is not running leaves the loop at its head and handles nothing;
    a running node handles its inbox and then waits. *)
Fixpoint messageProcessorLoop (fuel : nat) (n : PeerNode)
  : PeerNode * LoopEnd :=
  match fuel with
  | O => (n, LoopOutOfFuel)
  | S fuel' =>
      if negb (running_ n) then (n, LoopExited)
      else
        match message_queue_ n with
        | [] => (n, LoopWaits)
        | _ :: _ => messageProcessorLoop fuel' (messageProcessorStep n)
        end
  end.

(** The node the pump leaves; each pass takes one message, so one pass
    more than the inbox is long is enough. *)
Definition pumpAll (n : PeerNode) : PeerNode :=
  (messageProcessorLoop (S (length (message_queue_ n))) n).1.

(** The task the pump will queue for a message: the payload of a
    TASK_TRANSFER, if not null. *)
Definition transferred_task (m : Message.t) : option Task.t :=
  match Message.getType m with
  | TASK_TRANSFER => Message.getTask m
  | _ => None
  end.

(** The tasks a node holds: those in its queue and those carried by the
    transfers waiting in its inbox. *)
Definition queued_tasks (n : PeerNode) : list Task.t :=
  omap id (task_queue_ n).

Definition in_flight (n : PeerNode) : list Task.t :=
  omap transferred_task (message_queue_ n).

Definition held (n : PeerNode) : list Task.t :=
  queued_tasks n ++ in_flight n.

Definition held_at (nodes : list addr) (w : World) : list Task.t :=
  nodes ≫= (λ a, held (heap w a)).

(** ** Message.cpp: toString *)
Definition type_name (type : MessageType) : string :=
  match type with
  | LOAD_UPDATE => "LOAD_UPDATE"
  | TASK_REQUEST => "TASK_REQUEST"
  | TASK_TRANSFER => "TASK_TRANSFER"
  | PEER_DISCOVERY => "PEER_DISCOVERY"
  end.

(** What [toString] writes between the receiver and the closing bracket. *)
Definition toString_extras (m : Message.t) : string :=
  match Message.type_ m with
  | LOAD_UPDATE => " load=" +:+ pretty (Message.load_value_ m)
  | TASK_TRANSFER =>
      match Message.task_ m with
      | Some task => " task_id=" +:+ pretty (Task.getId task)
      | None => EmptyString
      end
  | _ => EmptyString
  end.

(** [Message::toString]; an [int] is written in decimal. *)
Definition toString (m : Message.t) : string :=
  "Message[" +:+ type_name (Message.type_ m)
  +:+ " from=" +:+ pretty (Message.sender_id_ m)
  +:+ " to=" +:+ pretty (Message.receiver_id_ m)
  +:+ toString_extras m +:+ "]".

(** ** main.cpp: building the network *)
Definition NUM_NODES : nat := 5.
Definition LOAD_THRESHOLD : Z := 10.

(** The first loop of [main]: node [i] is constructed with id [i], stored
    at index [i] of [nodes] (its address here) and registered under [i]. *)
Definition create_nodes (num_nodes : nat) (load_threshold : Z) (w : World)
  : World :=
  foldl (λ w' i,
           registerNode (Z.of_nat i) i
             (with_node i
                (λ _, PeerNode_new (Z.of_nat i) load_threshold true) w'))
        w (seq 0 num_nodes).

(** The inner loop of the mesh wiring, for one [i]. *)
Definition connect_node (num_nodes : nat) (i : nat) (w : World) : World :=
  foldl (λ w' j,
           if decide (i ≠ j) then with_node i (addPeer (Z.of_nat j)) w'
           else w')
        w (seq 0 num_nodes).

Definition connect_mesh (num_nodes : nat) (w : World) : World :=
  foldl (λ w' i, connect_node num_nodes i w') w (seq 0 num_nodes).

Definition start_all (num_nodes : nat) (w : World) : World :=
  foldl (λ w' i, with_node i start w') w (seq 0 num_nodes).

(** [main] up to the point where all nodes run, from an empty registry and
    a store [h0]. *)
Definition main_setup (num_nodes : nat) (load_threshold : Z)
    (h0 : addr → PeerNode) : World :=
  start_all num_nodes
    (connect_mesh num_nodes
       (create_nodes num_nodes load_threshold
          {| network := {| nodes_ := ∅ |}; heap := h0 |})).

(** ** Small runs *)

Definition task1 : Task.t := Task.new_at 1 100 0.
Definition task2 : Task.t := Task.new_at 2 100 0.
Definition task3 : Task.t := Task.new_at 3 100 0.

(** Node 0 with threshold 1, started, holding three tasks. *)
Definition node_loaded : PeerNode :=
  addTask (Some task3) (addTask (Some task2) (addTask (Some task1)
    (start (PeerNode_new 0 1 true)))).

(** The same node after it has processed a load update of depth 0 sent
    under the id 5. *)
Definition node_knows_5 : PeerNode :=
  dispatchMessage (Message.setLoadValue 0 (Message.new LOAD_UPDATE 5 (-1)))
    node_loaded.

(** The loaded node after a load update of depth 0 from the registered
    peer 1. *)
Definition node_knows_1 : PeerNode :=
  dispatchMessage (Message.setLoadValue 0 (Message.new LOAD_UPDATE 1 (-1)))
    node_loaded.

(** The loaded node after a load update of depth 0 that names node 0
    itself as sender. *)
Definition node_knows_itself : PeerNode :=
  dispatchMessage (Message.setLoadValue 0 (Message.new LOAD_UPDATE 0 (-1)))
    node_loaded.

(** Node 0 constructed with a null NetworkManager, threshold 1, started,
    holding three tasks. *)
Definition node_offline : PeerNode :=
  addTask (Some task3) (addTask (Some task2) (addTask (Some task1)
    (start (PeerNode_new 0 1 false)))).

(** The store of [two_node_world] with every node other than the one at
    address 0 started. *)
Definition two_running_world (n : PeerNode) : World :=
  registerNode 1 1%nat (registerNode 0 0%nat
    {| network := {| nodes_ := ∅ |};
       heap := λ a, match a with
                    | O => n
                    | _ => start (PeerNode_new (Z.of_nat a) 1 true)
                    end |}).

(** Node 0 with threshold 2, started, holding two tasks. *)
Definition node_at_threshold : PeerNode :=
  addTask (Some task2) (addTask (Some task1) (start (PeerNode_new 0 2 true))).

(** A store whose address 0 holds [n] and every other address [a] a fresh
    node of id [a]; ids 0 and 1 are registered at addresses 0 and 1. *)
Definition two_node_world (n : PeerNode) : World :=
  registerNode 1 1%nat (registerNode 0 0%nat
    {| network := {| nodes_ := ∅ |};
       heap := λ a, match a with
                    | O => n
                    | _ => PeerNode_new (Z.of_nat a) 1 true
                    end |}).

(** A turn of node 0 that sheds task 1 to peer 1: node 1 finds the load
    update and then the transfer in its inbox, and its pump queues the
    task. *)
Example shed_to_registered_peer :
  (loadMonitorTick 0%nat (two_node_world node_knows_1)).2
  = [CallBroadcast 0 (Message.setLoadValue 3 (Message.new LOAD_UPDATE 0 (-1)));
     CallSend (Message.setTask (Some task1) (Message.new TASK_TRANSFER 0 1))] ∧
  task_queue_
    (heap (loadMonitorTick 0%nat (two_node_world node_knows_1)).1 0%nat)
  = [Some task2; Some task3] ∧
  message_queue_
    (heap (loadMonitorTick 0%nat (two_node_world node_knows_1)).1 1%nat)
  = [Message.setLoadValue 3 (Message.new LOAD_UPDATE 0 (-1));
     Message.setTask (Some task1) (Message.new TASK_TRANSFER 0 1)] ∧
  task_queue_
    (messageProcessorStep (messageProcessorStep
       (heap (loadMonitorTick 0%nat (two_node_world node_knows_1)).1 1%nat)))
  = [Some task1].
Proof. vm_compute. done. Qed.

Example selectBestPeer_tie :
  selectBestPeer_at (<[2 := 0]> (<[1 := 0]> (<[7 := 3]> ∅))) 5 = 1.
Proof. vm_compute. reflexivity. Qed.

Example selectBestPeer_none :
  selectBestPeer_at (<[2 := 5]> (<[1 := 9]> ∅)) 5 = -1.
Proof. vm_compute. reflexivity. Qed.

Example map_iter_ascending :
  map_iter (<[3 := 30]> (<[-4 := 7]> (<[12 := 1]> (<[0 := 0]> ∅))))
  = [(-4, 7); (0, 0); (3, 30); (12, 1)].
Proof. vm_compute. reflexivity. Qed.

(** * Properties *)

(** ** Iteration over a std::map *)

Lemma map_iter_Permutation {V} (m : gmap Z V) : map_iter m ≡ₚ map_to_list m.
Proof. apply merge_sort_Permutation. Qed.

Lemma elem_of_map_iter {V} (m : gmap Z V) k v :
  (k, v) ∈ map_iter m ↔ m !! k = Some v.
Proof. rewrite map_iter_Permutation. apply elem_of_map_to_list. Qed.

Lemma map_iter_NoDup_keys {V} (m : gmap Z V) : NoDup (map_iter m).*1.
Proof. rewrite map_iter_Permutation. apply NoDup_fst_map_to_list. Qed.

Lemma map_iter_empty_iff {V} (m : gmap Z V) : map_iter m = [] ↔ m = ∅.
Proof.
  rewrite <- map_to_list_empty_iff. split; intros E.
  - apply Permutation_nil_r. rewrite <- E. symmetry. apply map_iter_Permutation.
  - apply Permutation_nil_r. rewrite <- E. apply map_iter_Permutation.
Qed.

Lemma sorted_nodup_strict {V} (l : list (Z * V)) :
  StronglySorted key_le l → NoDup l.*1 → StronglySorted key_lt l.
Proof.
  induction l as [|[k v] l IH]; intros Hs Hn; [constructor|].
  apply StronglySorted_inv in Hs as [Hs Hall].
  apply NoDup_cons in Hn as [Hk Hn].
  constructor; [by apply IH|].
  apply Forall_forall. intros [k' v'] Hin.
  rewrite Forall_forall in Hall. specialize (Hall _ Hin).
  unfold key_le, key_lt in *. simpl in *.
  assert (k ≠ k'); [|lia].
  intros ->. apply Hk. apply list_elem_of_fmap. by exists (k', v').
Qed.

Lemma map_iter_ascending_keys {V} (m : gmap Z V) :
  StronglySorted key_lt (map_iter m).
Proof.
  apply sorted_nodup_strict.
  - apply StronglySorted_merge_sort; apply _.
  - apply map_iter_NoDup_keys.
Qed.

(** ** selectBestPeer *)

(** What the loop leaves in [(best_peer, min_load)] after a run over entries
    with ascending keys: either nothing was below the initial minimum and
    the pair is untouched, or the pair is the first entry of least load. *)
Lemma selectBestPeer_loop_spec (l : list (Z * Z)) (b0 m0 : Z) :
  StronglySorted key_lt l →
  let r := foldl selectBestPeer_step (b0, m0) l in
  (r = (b0, m0) ∧ ∀ k v, (k, v) ∈ l → m0 ≤ v) ∨
  (r ∈ l ∧ r.2 < m0 ∧
   (∀ k v, (k, v) ∈ l → r.2 ≤ v) ∧ (∀ k, (k, r.2) ∈ l → r.1 ≤ k)).
Proof.
  revert b0 m0. induction l as [|[k v] l IH]; intros b0 m0 Hs; simpl.
  { left. split; [done|]. intros k v Hin. by apply elem_of_nil in Hin. }
  apply StronglySorted_inv in Hs as [Hs Hhd].
  rewrite Forall_forall in Hhd.
  destruct (decide (v < m0)) as [Hlt|Hge].
  - destruct (IH k v Hs) as [[-> Hall]|(Hin & Hlt' & Hmin & Htie)].
    + right. simpl. repeat split.
      * apply list_elem_of_here.
      * done.
      * intros k' v' [[= -> ->]|Hin]%elem_of_cons; [lia|by eapply Hall].
      * intros k' [[= ->]|Hin]%elem_of_cons; [lia|].
        specialize (Hhd _ Hin). unfold key_lt in Hhd. simpl in Hhd. lia.
    + right. repeat split.
      * by apply list_elem_of_further.
      * lia.
      * intros k' v' [[= -> ->]|Hin']%elem_of_cons; [lia|by eapply Hmin].
      * intros k' [[= -> Hv]|Hin']%elem_of_cons; [lia|by apply Htie].
  - destruct (IH b0 m0 Hs) as [[-> Hall]|(Hin & Hlt' & Hmin & Htie)].
    + left. split; [done|].
      intros k' v' [[= -> ->]|Hin]%elem_of_cons; [lia|by eapply Hall].
    + right. repeat split.
      * by apply list_elem_of_further.
      * done.
      * intros k' v' [[= -> ->]|Hin']%elem_of_cons; [lia|by eapply Hmin].
      * intros k' [[= -> Hv]|Hin']%elem_of_cons; [lia|by apply Htie].
Qed.

(** The two outcomes of [selectBestPeer_at]: the sentinel with nothing
    recorded below [d], or the cheapest peer. *)
Lemma selectBestPeer_at_cases (peer_loads : gmap Z Z) (d : Z) :
  (selectBestPeer_at peer_loads d = -1 ∧
   ∀ k v, peer_loads !! k = Some v → d ≤ v) ∨
  cheapest_peer peer_loads d (selectBestPeer_at peer_loads d).
Proof.
  unfold selectBestPeer_at. destruct (decide (peer_loads = ∅)) as [->|Hne].
  { left. split; [done|]. intros k v Hk. by rewrite lookup_empty in Hk. }
  destruct (selectBestPeer_loop_spec (map_iter peer_loads) (-1) d
              (map_iter_ascending_keys peer_loads))
    as [[-> Hall]|(Hin & Hlt & Hmin & Htie)].
  - left. split; [done|]. intros k v Hk. eapply Hall. by apply elem_of_map_iter.
  - right. destruct (foldl _ _ _) as [b m]. simpl in *.
    exists m. repeat split.
    + by apply elem_of_map_iter.
    + done.
    + intros k v Hk. eapply Hmin. by apply elem_of_map_iter.
    + intros k Hk. apply Htie. by apply elem_of_map_iter.
Qed.

(** C1. For every peer-load view and every current depth [d],
    [selectBestPeer] returns the sentinel -1 or a peer recorded with a depth
    strictly below [d]; a returned peer has the least recorded depth of the
    view (so of the entries below [d]) and the smallest id among the peers at
    that depth; whenever some entry is below [d] the answer is that peer;
    and the answer is -1 whenever the view is empty or no entry is below
    [d]. *)
Theorem selectBestPeer_cheapest (peer_loads : gmap Z Z) (d : Z) :
  let r := selectBestPeer_at peer_loads d in
  (r = -1 ∨ cheapest_peer peer_loads d r) ∧
  (r ≠ -1 → cheapest_peer peer_loads d r) ∧
  ((∃ k v, peer_loads !! k = Some v ∧ v < d) → cheapest_peer peer_loads d r) ∧
  (peer_loads = ∅ ∨ (∀ k v, peer_loads !! k = Some v → ¬ v < d) → r = -1).
Proof.
  intros r. subst r.
  destruct (selectBestPeer_at_cases peer_loads d) as [[Hr Hall]|Hbest].
  - repeat split.
    + by left.
    + done.
    + intros (k & v & Hk & Hlt). specialize (Hall _ _ Hk). lia.
    + done.
  - repeat split; try done.
    + by right.
    + destruct Hbest as (load & Hr & Hlt & _).
      intros [->|Hnone].
      * by rewrite lookup_empty in Hr.
      * by destruct (Hnone _ _ Hr).
Qed.

(** C1 at the view of scenario 3: peers 1 and 2 both at depth 0, peer 7 at
    depth 3, own depth 5; the answer is peer 1. *)
Lemma selectBestPeer_cheapest_witness :
  selectBestPeer_at (<[2 := 0]> (<[1 := 0]> (<[7 := 3]> ∅))) 5 = 1 ∧
  cheapest_peer (<[2 := 0]> (<[1 := 0]> (<[7 := 3]> ∅))) 5
    (selectBestPeer_at (<[2 := 0]> (<[1 := 0]> (<[7 := 3]> ∅))) 5).
Proof.
  split; [vm_compute; reflexivity|].
  destruct (selectBestPeer_cheapest (<[2 := 0]> (<[1 := 0]> (<[7 := 3]> ∅))) 5)
    as (_ & Hpeer & _ & _).
  apply Hpeer. vm_compute. discriminate.
Defined.

(** ** addPeer *)

Lemma addPeer_present (n : PeerNode) (p : Z) : p ∈ peers_ n → addPeer p n = n.
Proof. intros Hin. unfold addPeer. by rewrite decide_True. Qed.

Lemma addPeer_absent (n : PeerNode) (p : Z) :
  p ∉ peers_ n → addPeer p n = set_peers (peers_ n ++ [p]) n.
Proof. intros Hin. unfold addPeer. by rewrite decide_False. Qed.

Lemma addPeer_elem_of (n : PeerNode) (p : Z) : p ∈ peers_ (addPeer p n).
Proof.
  destruct (decide (p ∈ peers_ n)) as [Hin|Hin].
  - by rewrite addPeer_present.
  - rewrite addPeer_absent by done. simpl. apply elem_of_app. right.
    apply list_elem_of_here.
Qed.

(** C8. [addPeer] is idempotent: two calls with the same id leave the node,
    and so its peer list, as one call does; a call with an id already in the
    list changes nothing. *)
Theorem addPeer_idempotent (n : PeerNode) (p : Z) :
  addPeer p (addPeer p n) = addPeer p n ∧
  getPeers (addPeer p (addPeer p n)) = getPeers (addPeer p n) ∧
  (p ∈ getPeers n → getPeers (addPeer p n) = getPeers n).
Proof.
  assert (addPeer p (addPeer p n) = addPeer p n) as Htwice
    by apply addPeer_present, addPeer_elem_of.
  split; [done|]. split; [by rewrite Htwice|].
  unfold getPeers. intros Hin. by rewrite addPeer_present.
Qed.

Lemma addPeer_idempotent_witness :
  getPeers (addPeer 3 (set_peers [1; 3] (PeerNode_new 0 5 true))) = [1; 3].
Proof.
  destruct (addPeer_idempotent (set_peers [1; 3] (PeerNode_new 0 5 true)) 3)
    as (_ & _ & Hsame).
  apply Hsame. vm_compute. apply list_elem_of_further, list_elem_of_here.
Defined.

(** C10. [addPeer] never compares its argument with the node's own id: an
    id that is not yet in the list is appended whatever it is, and after
    [addPeer] with the node's own id the node is in its own peer list. *)
Theorem addPeer_no_self_check (n : PeerNode) (p : Z) :
  (p ∉ getPeers n → getPeers (addPeer p n) = getPeers n ++ [p]) ∧
  (getId n ∉ getPeers n →
   getPeers (addPeer (getId n) n) = getPeers n ++ [getId n]) ∧
  getId n ∈ getPeers (addPeer (getId n) n).
Proof.
  unfold getPeers, getId. repeat split.
  - intros Hin. by rewrite addPeer_absent.
  - intros Hin. by rewrite addPeer_absent.
  - apply addPeer_elem_of.
Qed.

Lemma addPeer_no_self_check_witness :
  getPeers (addPeer 0 (set_peers [1; 2] (PeerNode_new 0 5 true))) = [1; 2; 0].
Proof.
  destruct (addPeer_no_self_check (set_peers [1; 2] (PeerNode_new 0 5 true)) 0)
    as (_ & Hself & _).
  apply Hself. vm_compute.
  intros Hin. repeat (apply elem_of_cons in Hin as [Hin|Hin]; [discriminate|]).
  by apply elem_of_nil in Hin.
Defined.

(** ** handleMessage *)

(** C6, as the code has it. [handleMessage] does not look at [running_]:
    on a running and on a stopped node alike the message is pushed at the
    back of the inbox, and no other field of the node changes. *)
Theorem handleMessage_appends_in_any_state (n : PeerNode) (m : Message.t) :
  message_queue_ (handleMessage m n) = message_queue_ n ++ [m] ∧
  running_ (handleMessage m n) = running_ n ∧
  task_queue_ (handleMessage m n) = task_queue_ n ∧
  peer_loads_ (handleMessage m n) = peer_loads_ n ∧
  peers_ (handleMessage m n) = peers_ n ∧
  tasks_processed_ (handleMessage m n) = tasks_processed_ n ∧
  id_ (handleMessage m n) = id_ n ∧
  load_threshold_ (handleMessage m n) = load_threshold_ n ∧
  network_manager_ (handleMessage m n) = network_manager_ n.
Proof. by repeat split. Qed.

(** C6 fails on a node that was never started: the inbox of the stopped
    node 0 holds the message after the call. *)
Lemma handleMessage_stopped_counterexample :
  running_ (PeerNode_new 0 5 true) = false ∧
  message_queue_
    (handleMessage (Message.new LOAD_UPDATE 1 (-1)) (PeerNode_new 0 5 true))
  = [Message.new LOAD_UPDATE 1 (-1)] ∧
  message_queue_
    (handleMessage (Message.new LOAD_UPDATE 1 (-1)) (PeerNode_new 0 5 true))
  ≠ message_queue_ (PeerNode_new 0 5 true).
Proof. repeat split. discriminate. Qed.

(** ** Message accessors *)

(** C7, as the code has it. The payload accessors return the stored field
    whatever the type of the message: the load is 0 and the task is null
    after construction, then whatever the setters last stored, and the
    setters leave the type as it is. *)
Theorem accessors_ignore_the_variant
    (type : MessageType) (sender receiver load : Z)
    (task : shared_ptr Task.t) (m : Message.t) :
  Message.getLoadValue (Message.new type sender receiver) = 0 ∧
  Message.getTask (Message.new type sender receiver) = None ∧
  Message.getLoadValue (Message.setLoadValue load m) = load ∧
  Message.getTask (Message.setTask task m) = task ∧
  Message.getType (Message.setLoadValue load m) = Message.getType m ∧
  Message.getType (Message.setTask task m) = Message.getType m ∧
  Message.getLoadValue (Message.setTask task m) = Message.getLoadValue m ∧
  Message.getTask (Message.setLoadValue load m) = Message.getTask m.
Proof. by repeat split. Qed.

(** C7 fails both ways: a TASK_TRANSFER message answers [getLoadValue] with
    the load stored in it, and a LOAD_UPDATE message answers [getTask] with
    the task stored in it, where the checked accessors answer absence. *)
Lemma accessors_wrong_variant_counterexample :
  let transfer := Message.setLoadValue 7 (Message.new TASK_TRANSFER 0 1) in
  let update :=
    Message.setTask (Some (Task.new_at 4 10 0)) (Message.new LOAD_UPDATE 0 (-1)) in
  Message.getType transfer ≠ LOAD_UPDATE ∧
  Message.getLoadValue transfer = 7 ∧
  Message.strict_getLoadValue transfer = None ∧
  Message.getType update ≠ TASK_TRANSFER ∧
  Message.getTask update = Some (Task.new_at 4 10 0) ∧
  Message.strict_getTask update = None.
Proof. by repeat split. Qed.

(** ** The store *)

Lemma heap_with_node_eq a f w : heap (with_node a f w) a = f (heap w a).
Proof. simpl. apply fn_lookup_insert. Qed.

Lemma heap_with_node_ne a b f w : a ≠ b → heap (with_node a f w) b = heap w b.
Proof. intros Hne. simpl. by apply fn_lookup_insert_ne. Qed.

Lemma inbox_only_refl n : inbox_only n n.
Proof. by destruct n. Qed.

Lemma inbox_only_handleMessage n n' m :
  inbox_only n n' → inbox_only n (handleMessage m n').
Proof. unfold inbox_only. intros ->. done. Qed.

Lemma inbox_only_fields n n' :
  inbox_only n n' →
  id_ n' = id_ n ∧ load_threshold_ n' = load_threshold_ n ∧
  tasks_processed_ n' = tasks_processed_ n ∧ task_queue_ n' = task_queue_ n ∧
  peer_loads_ n' = peer_loads_ n ∧ peers_ n' = peers_ n ∧
  running_ n' = running_ n ∧ network_manager_ n' = network_manager_ n.
Proof. unfold inbox_only. intros ->. by repeat split. Qed.

Lemma iter_handleMessage_inbox k m n :
  message_queue_ (Nat.iter k (handleMessage m) n)
  = message_queue_ n ++ replicate k m.
Proof.
  revert n. induction k as [|k IH]; intros n.
  - simpl. by rewrite app_nil_r.
  - rewrite Nat.iter_succ_r, IH. simpl. by rewrite <- app_assoc.
Qed.

Lemma iter_handleMessage_inbox_only k m n :
  inbox_only n (Nat.iter k (handleMessage m) n).
Proof.
  induction k as [|k IH]; simpl.
  - apply inbox_only_refl.
  - by apply inbox_only_handleMessage.
Qed.

(** Delivering one message to each address of a list, as the second loop of
    [broadcastMessage] does. *)
Lemma deliver_all_heap m (rs : list addr) w a :
  heap (foldl (λ w' r, with_node r (handleMessage m) w') w rs) a
  = Nat.iter (length (filter (λ r, r = a) rs)) (handleMessage m) (heap w a).
Proof.
  revert w. induction rs as [|r rs IH]; intros w; [done|].
  cbn [foldl]. rewrite IH. destruct (decide (r = a)) as [->|Hne].
  - rewrite filter_cons_True by done. cbn [length].
    rewrite Nat.iter_succ_r. f_equal. apply heap_with_node_eq.
  - rewrite filter_cons_False by done. f_equal. by apply heap_with_node_ne.
Qed.

Lemma deliver_all_network m (rs : list addr) w :
  network (foldl (λ w' r, with_node r (handleMessage m) w') w rs) = network w.
Proof. revert w. induction rs as [|r rs IH]; intros w; [done|]. simpl. by rewrite IH. Qed.

(** ** broadcastMessage *)

Lemma elem_of_broadcast_targets sender_id nm k a :
  (k, a) ∈ broadcast_targets sender_id nm
  ↔ nodes_ nm !! k = Some a ∧ k ≠ sender_id.
Proof.
  unfold broadcast_targets. rewrite list_elem_of_filter, elem_of_map_iter.
  simpl. tauto.
Qed.

Lemma NoDup_fst_filter {V} (P : Z * V → Prop) `{∀ e, Decision (P e)}
    (l : list (Z * V)) :
  NoDup l.*1 → NoDup (filter P l).*1.
Proof.
  induction l as [|e l IH]; [done|].
  rewrite fmap_cons, NoDup_cons. intros [Hnotin Hnd].
  destruct (decide (P e)).
  - rewrite filter_cons_True by done. rewrite fmap_cons, NoDup_cons.
    split; [|by apply IH].
    intros (e' & He' & Hin)%list_elem_of_fmap.
    apply list_elem_of_filter in Hin as [_ Hin].
    apply Hnotin, list_elem_of_fmap. by exists e'.
  - rewrite filter_cons_False by done. by apply IH.
Qed.

Lemma broadcast_targets_NoDup sender_id nm :
  NoDup (broadcast_targets sender_id nm).*1.
Proof. apply NoDup_fst_filter, map_iter_NoDup_keys. Qed.

Lemma length_filter_snd {V} `{EqDecision V} (a : V) (l : list (Z * V)) :
  length (filter (λ r, r = a) l.*2) = length (filter (λ e, e.2 = a) l).
Proof.
  induction l as [|[k v] l IH]; [done|].
  rewrite fmap_cons. simpl. destruct (decide (v = a)).
  - rewrite !filter_cons_True by done. simpl. by rewrite IH.
  - by rewrite !filter_cons_False.
Qed.

Lemma filter_none {A} (P : A → Prop) `{∀ x, Decision (P x)} (l : list A) :
  (∀ x, x ∈ l → ¬ P x) → filter P l = [].
Proof.
  intros Hnone. destruct (filter P l) as [|x l'] eqn:E; [done|].
  assert (x ∈ filter P l) as [HP Hin]%list_elem_of_filter
    by (rewrite E; apply list_elem_of_here).
  by destruct (Hnone x Hin).
Qed.

Lemma NoDup_constant_length {A} (l : list A) (y : A) :
  NoDup l → (∀ x, x ∈ l → x = y) → y ∈ l → length l = 1%nat.
Proof.
  intros Hnd Hall Hin. destruct l as [|x [|x' l]].
  - by apply elem_of_nil in Hin.
  - done.
  - apply NoDup_cons in Hnd as [Hx _]. exfalso. apply Hx.
    rewrite (Hall x) by apply list_elem_of_here.
    rewrite <- (Hall x') at 1
      by apply list_elem_of_further, list_elem_of_here.
    apply list_elem_of_here.
Qed.

(** The number of [handleMessage] calls a broadcast makes on the node at
    address [a] is the number of registered ids other than the sender that
    point to it. *)
Lemma broadcastMessage_heap sender_id m w a :
  heap (broadcastMessage sender_id m w) a
  = Nat.iter
      (length (filter (λ e, e.2 = a) (broadcast_targets sender_id (network w))))
      (handleMessage m) (heap w a).
Proof.
  unfold broadcastMessage, receivers.
  by rewrite deliver_all_heap, length_filter_snd.
Qed.

Lemma broadcastMessage_network sender_id m w :
  network (broadcastMessage sender_id m w) = network w.
Proof. apply deliver_all_network. Qed.

Lemma broadcastMessage_inbox_only sender_id m w a :
  inbox_only (heap w a) (heap (broadcastMessage sender_id m w) a).
Proof. rewrite broadcastMessage_heap. apply iter_handleMessage_inbox_only. Qed.

Lemma broadcast_targets_once sender_id nm k a :
  nodes_ nm !! k = Some a → k ≠ sender_id →
  (∀ k', nodes_ nm !! k' = Some a → k' ≠ sender_id → k' = k) →
  length (filter (λ e, e.2 = a) (broadcast_targets sender_id nm)) = 1%nat.
Proof.
  intros Hk Hne Hinj. apply (NoDup_constant_length _ (k, a)).
  - eapply NoDup_fmap_1, (NoDup_fst_filter (λ e, e.2 = a)),
      broadcast_targets_NoDup.
  - intros [k' a'] [Ha' [Hk' Hne']%elem_of_broadcast_targets]%list_elem_of_filter.
    simpl in Ha'. subst a'. f_equal. by apply Hinj.
  - apply list_elem_of_filter. split; [done|].
    by apply elem_of_broadcast_targets.
Qed.

Lemma broadcast_targets_none sender_id nm a :
  (∀ k, nodes_ nm !! k = Some a → k = sender_id) →
  filter (λ e, e.2 = a) (broadcast_targets sender_id nm) = [].
Proof.
  intros Honly. apply filter_none.
  intros [k a'] [Hk Hne]%elem_of_broadcast_targets Ha'. simpl in Ha'. subst a'.
  by apply Hne, Honly.
Qed.

(** C5. For every registry and every sender id, the entries
    [broadcastMessage] delivers to are exactly the registered entries whose
    id differs from the sender id, each of them once, and the sender id is
    not among them.  On the store: each node receives one [handleMessage]
    per such entry that points to it, so a node registered under one id
    other than the sender's gains the message once, and a node registered
    under the sender id only is left as it was.  With nobody but the sender
    registered the receivers are none and the store is untouched. *)
Theorem broadcast_excludes_sender (w : World) (sender_id : Z) (m : Message.t) :
  let nm := network w in
  let w' := broadcastMessage sender_id m w in
  (∀ k a, ((k, a) ∈ broadcast_targets sender_id nm)
          ↔ (nodes_ nm !! k = Some a ∧ k ≠ sender_id)) ∧
  NoDup (broadcast_targets sender_id nm).*1 ∧
  (sender_id ∉ (broadcast_targets sender_id nm).*1) ∧
  (∀ a, message_queue_ (heap w' a)
        = message_queue_ (heap w a)
          ++ replicate (length (filter (λ e, e.2 = a)
                                  (broadcast_targets sender_id nm))) m) ∧
  (∀ a, inbox_only (heap w a) (heap w' a)) ∧
  (∀ k a, nodes_ nm !! k = Some a → k ≠ sender_id →
          (∀ k', nodes_ nm !! k' = Some a → k' ≠ sender_id → k' = k) →
          message_queue_ (heap w' a) = message_queue_ (heap w a) ++ [m]) ∧
  (∀ a, (∀ k, nodes_ nm !! k = Some a → k = sender_id) →
        heap w' a = heap w a) ∧
  ((∀ k, is_Some (nodes_ nm !! k) → k = sender_id) →
   receivers sender_id nm = [] ∧ w' = w).
Proof.
  intros nm w'. subst nm w'. split_and!.
  - intros k a. apply elem_of_broadcast_targets.
  - apply broadcast_targets_NoDup.
  - intros ([k a] & Hk & [_ Hne]%elem_of_broadcast_targets)%list_elem_of_fmap.
    simpl in Hk. by subst k.
  - intros a. by rewrite broadcastMessage_heap, iter_handleMessage_inbox.
  - apply broadcastMessage_inbox_only.
  - intros k a Hk Hne Hinj.
    rewrite broadcastMessage_heap, iter_handleMessage_inbox.
    by rewrite (broadcast_targets_once _ _ k).
  - intros a Honly.
    by rewrite broadcastMessage_heap, broadcast_targets_none.
  - intros Honly.
    assert (receivers sender_id (network w) = []) as Hnone.
    { unfold receivers.
      destruct (broadcast_targets _ _) as [|[k a] l] eqn:E; [done|].
      assert ((k, a) ∈ broadcast_targets sender_id (network w))
        as [Hk Hne]%elem_of_broadcast_targets
        by (rewrite E; apply list_elem_of_here).
      destruct Hne. apply Honly. by exists a. }
    split; [done|]. unfold broadcastMessage. by rewrite Hnone.
Qed.

Lemma broadcast_excludes_sender_witness :
  message_queue_
    (heap (broadcastMessage 0 (Message.new LOAD_UPDATE 0 (-1))
             (two_node_world node_loaded)) 1%nat)
  = message_queue_ (heap (two_node_world node_loaded) 1%nat)
    ++ [Message.new LOAD_UPDATE 0 (-1)] ∧
  heap (broadcastMessage 0 (Message.new LOAD_UPDATE 0 (-1))
          (two_node_world node_loaded)) 0%nat
  = heap (two_node_world node_loaded) 0%nat.
Proof.
  destruct (broadcast_excludes_sender (two_node_world node_loaded) 0
              (Message.new LOAD_UPDATE 0 (-1)))
    as (_ & _ & _ & _ & _ & Honce & Hnone & _).
  split.
  - apply (Honce 1); [vm_compute; reflexivity|discriminate|].
    intros k' Hk' _. simpl in Hk'.
    destruct (decide (k' = 1)) as [|Hne]; [done|].
    rewrite lookup_insert_ne in Hk' by done.
    destruct (decide (k' = 0)) as [->|Hne0].
    + rewrite lookup_insert_eq in Hk'. discriminate.
    + rewrite lookup_insert_ne, lookup_empty in Hk' by done. discriminate.
  - apply Hnone. intros k Hk. simpl in Hk.
    destruct (decide (k = 1)) as [->|Hne].
    + rewrite lookup_insert_eq in Hk. discriminate.
    + rewrite lookup_insert_ne in Hk by done.
      destruct (decide (k = 0)) as [|Hne0]; [done|].
      rewrite lookup_insert_ne, lookup_empty in Hk by done. discriminate.
Defined.

(** ** loadMonitorLoop and offloadTask *)

(** The load update a node gossips. *)
Lemma gossip_inv self d w w1 calls1 :
  gossip self d w = (w1, calls1) →
  network w1 = network w ∧
  (∀ a, inbox_only (heap w a) (heap w1 a)) ∧
  (∀ m, CallSend m ∉ calls1) ∧
  (∀ a, ∃ k, message_queue_ (heap w1 a)
             = message_queue_ (heap w a)
               ++ replicate k (Message.setLoadValue d
                    (Message.new LOAD_UPDATE (id_ (heap w self)) (-1)))).
Proof.
  unfold gossip. destruct (network_manager_ (heap w self)); intros [= <- <-].
  - split_and!.
    + apply broadcastMessage_network.
    + intros a. apply broadcastMessage_inbox_only.
    + intros m [[=]|Hin%elem_of_nil]%elem_of_cons. done.
    + intros a. eexists.
      by rewrite broadcastMessage_heap, iter_handleMessage_inbox.
  - split_and!; [done|intros a; apply inbox_only_refl| |].
    + intros m Hin. by apply elem_of_nil in Hin.
    + intros a. exists 0%nat. simpl. by rewrite app_nil_r.
Qed.

(** At or below the threshold a turn is the gossip alone. *)
Lemma loadMonitorTick_no_offload self w :
  getCurrentLoad (heap w self) ≤ load_threshold_ (heap w self) →
  loadMonitorTick self w
  = if running_ (heap w self)
    then gossip self (getCurrentLoad (heap w self)) w else (w, []).
Proof.
  intros Hle. unfold loadMonitorTick.
  destruct (running_ (heap w self)); [|done]. simpl.
  destruct (gossip _ _ _) as [w1 calls1].
  rewrite decide_False by lia. done.
Qed.

(** Above the threshold, with a task at the head of the queue, a turn is
    the gossip, the pop and [offloadTask]. *)
Lemma loadMonitorTick_offload self w task rest w1 calls1 :
  running_ (heap w self) = true →
  getCurrentLoad (heap w self) > load_threshold_ (heap w self) →
  task_queue_ (heap w self) = Some task :: rest →
  gossip self (getCurrentLoad (heap w self)) w = (w1, calls1) →
  loadMonitorTick self w
  = let '(w3, calls3) :=
      offloadTask self (Some task) (with_node self (set_task_queue rest) w1) in
    (w3, calls1 ++ calls3).
Proof.
  intros Hrun Hgt Hq Hg. unfold loadMonitorTick. rewrite Hrun. simpl.
  rewrite Hg. rewrite decide_True by done.
  destruct (gossip_inv _ _ _ _ _ Hg) as (_ & Hinbox & _).
  destruct (inbox_only_fields _ _ (Hinbox self))
    as (_ & _ & _ & -> & _).
  rewrite Hq. done.
Qed.

Lemma selectBestPeer_inbox_only n n' q :
  inbox_only n n' →
  selectBestPeer (set_task_queue q n') = selectBestPeer (set_task_queue q n).
Proof.
  intros (_ & _ & _ & _ & Hpl & _)%inbox_only_fields.
  unfold selectBestPeer, getCurrentLoad. simpl. by rewrite Hpl.
Qed.

Lemma offloadTask_reinserts self task w :
  selectBestPeer (heap w self) = -1 ∨ network_manager_ (heap w self) = false →
  offloadTask self task w = (with_node self (addTask task) w, []).
Proof.
  intros Hno. unfold offloadTask.
  cbv zeta. destruct Hno as [-> | ->].
  - rewrite bool_decide_false; [done|]. intros Hne. by apply Hne.
  - by rewrite andb_false_r.
Qed.

Lemma offloadTask_sends self task w :
  selectBestPeer (heap w self) ≠ -1 →
  network_manager_ (heap w self) = true →
  offloadTask self task w
  = let transfer_msg :=
      Message.setTask task
        (Message.new TASK_TRANSFER (id_ (heap w self))
           (selectBestPeer (heap w self))) in
    (sendMessage transfer_msg w, [CallSend transfer_msg]).
Proof.
  intros Hpeer Hnet. unfold offloadTask.
  by rewrite bool_decide_true, Hnet.
Qed.

(** Every [sendMessage] call of a turn: the node runs, its sampled load is
    above the threshold, a task was popped, and the message is the transfer
    of that task to the peer [selectBestPeer] returned after the pop. *)
Lemma loadMonitorTick_send_inv self w m :
  CallSend m ∈ (loadMonitorTick self w).2 →
  running_ (heap w self) = true ∧
  getCurrentLoad (heap w self) > load_threshold_ (heap w self) ∧
  network_manager_ (heap w self) = true ∧
  ∃ task rest,
    task_queue_ (heap w self) = Some task :: rest ∧
    selectBestPeer (set_task_queue rest (heap w self)) ≠ -1 ∧
    m = Message.setTask (Some task)
          (Message.new TASK_TRANSFER (id_ (heap w self))
             (selectBestPeer (set_task_queue rest (heap w self)))).
Proof.
  destruct (decide (getCurrentLoad (heap w self)
                    ≤ load_threshold_ (heap w self))) as [Hle|Hgt].
  { rewrite loadMonitorTick_no_offload by done.
    destruct (running_ (heap w self)).
    - destruct (gossip _ _ _) as [w1 calls1] eqn:Hg. simpl.
      intros Hin. by destruct (gossip_inv _ _ _ _ _ Hg) as (_ & _ & Hno & _), (Hno m).
    - simpl. intros Hin. by apply elem_of_nil in Hin. }
  unfold loadMonitorTick.
  destruct (running_ (heap w self)) eqn:Hrun; simpl;
    [|intros Hin; by apply elem_of_nil in Hin].
  destruct (gossip _ _ _) as [w1 calls1] eqn:Hg.
  destruct (gossip_inv _ _ _ _ _ Hg) as (_ & Hinbox & Hno & _).
  pose proof (inbox_only_fields _ _ (Hinbox self))
    as (Hid & _ & _ & Hq & _ & _ & _ & Hnet).
  rewrite decide_True by lia. rewrite Hq.
  destruct (task_queue_ (heap w self)) as [|[task|] rest] eqn:Hq'; simpl;
    try (intros Hin; by destruct (Hno m)).
  unfold offloadTask. rewrite !heap_with_node_eq.
  rewrite (selectBestPeer_inbox_only (heap w self)) by done.
  simpl network_manager_. simpl id_. rewrite Hnet, Hid.
  destruct (bool_decide _) eqn:Hbest; simpl;
    destruct (network_manager_ (heap w self)) eqn:Hnm; simpl;
    rewrite ?app_nil_r; try (intros Hin; by destruct (Hno m)).
  intros [Hin|Hin]%elem_of_app; [by destruct (Hno m)|].
  apply list_elem_of_singleton in Hin as [= ->].
  apply bool_decide_eq_true in Hbest.
  split_and!; [done|lia|done|]. by exists task, rest.
Qed.

(** A turn above the threshold whose peer selection returns the sentinel
    puts the popped task back at the tail. *)
Lemma loadMonitorTick_reinserts self w task rest :
  running_ (heap w self) = true →
  task_queue_ (heap w self) = Some task :: rest →
  getCurrentLoad (heap w self) > load_threshold_ (heap w self) →
  selectBestPeer (set_task_queue rest (heap w self)) = -1 →
  task_queue_ (heap (loadMonitorTick self w).1 self) = rest ++ [Some task] ∧
  (∀ a, a ≠ self →
        task_queue_ (heap (loadMonitorTick self w).1 a)
        = task_queue_ (heap w a)) ∧
  (∀ m, CallSend m ∉ (loadMonitorTick self w).2).
Proof.
  intros Hrun Hq Hgt Habsent.
  destruct (gossip self (getCurrentLoad (heap w self)) w)
    as [w1 calls1] eqn:Hg.
  destruct (gossip_inv _ _ _ _ _ Hg) as (_ & Hinbox & Hno & _).
  rewrite (loadMonitorTick_offload _ _ _ _ _ _ Hrun Hgt Hq Hg).
  rewrite offloadTask_reinserts; cycle 1.
  { left. rewrite heap_with_node_eq.
    by rewrite (selectBestPeer_inbox_only (heap w self)). }
  simpl fst. simpl snd. split_and!.
  - rewrite !heap_with_node_eq. simpl. done.
  - intros a Hne. rewrite !heap_with_node_ne by done.
    by destruct (inbox_only_fields _ _ (Hinbox a)) as (_ & _ & _ & -> & _).
  - intros m. rewrite app_nil_r. apply Hno.
Qed.

(** [selectBestPeer] returns the sentinel on an empty view and on a view
    with nothing below the current load. *)
Lemma selectBestPeer_absent n :
  peer_loads_ n = ∅ ∨
  (∀ k v, peer_loads_ n !! k = Some v → ¬ v < getCurrentLoad n) →
  selectBestPeer n = -1.
Proof.
  intros Hnone. unfold selectBestPeer.
  destruct (selectBestPeer_at_cases (peer_loads_ n) (getCurrentLoad n))
    as [[Hr _]|(load & Hr & Hlt & _)]; [done|].
  destruct Hnone as [Hempty|Hnone].
  - by rewrite Hempty, lookup_empty in Hr.
  - by destruct (Hnone _ _ Hr).
Qed.

(** C3. In a turn that attempts an offload (the node runs, its load is above
    the threshold, a task is popped from the head) and whose peer selection
    returns the sentinel, as it does on an empty view and on a view with no
    entry below the depth read at selection, the popped task is pushed back
    at the tail of the node's own queue: the queue holds the same tasks as
    before, no other queue changes and nothing is sent. *)
Theorem offload_without_peer_reinserts
    (w : World) (self : addr) (task : Task.t)
    (rest : list (shared_ptr Task.t)) :
  running_ (heap w self) = true →
  task_queue_ (heap w self) = Some task :: rest →
  getCurrentLoad (heap w self) > load_threshold_ (heap w self) →
  (selectBestPeer (set_task_queue rest (heap w self)) = -1 ∨
   peer_loads_ (heap w self) = ∅ ∨
   (∀ k v, peer_loads_ (heap w self) !! k = Some v →
           ¬ v < getCurrentLoad (set_task_queue rest (heap w self)))) →
  task_queue_ (heap (loadMonitorTick self w).1 self) = rest ++ [Some task] ∧
  task_queue_ (heap (loadMonitorTick self w).1 self)
    ≡ₚ task_queue_ (heap w self) ∧
  (∀ a, a ≠ self →
        task_queue_ (heap (loadMonitorTick self w).1 a)
        = task_queue_ (heap w a)) ∧
  (∀ m, CallSend m ∉ (loadMonitorTick self w).2).
Proof.
  intros Hrun Hq Hgt Hwhy.
  assert (selectBestPeer (set_task_queue rest (heap w self)) = -1) as Habsent.
  { destruct Hwhy as [Hsel|Hview]; [done|].
    apply selectBestPeer_absent. exact Hview. }
  destruct (loadMonitorTick_reinserts self w task rest Hrun Hq Hgt Habsent)
    as (Hself & Hothers & Hcalls).
  split_and!; try done.
  rewrite Hself, Hq. symmetry. apply Permutation_cons_append.
Qed.

(** C3 on node 0 holding tasks 1, 2, 3 above its threshold 1, with an empty
    view: task 1 goes to the tail. *)
Lemma offload_without_peer_reinserts_witness :
  task_queue_ (heap (loadMonitorTick 0%nat (two_node_world node_loaded)).1 0%nat)
  = [Some task2; Some task3] ++ [Some task1].
Proof.
  apply (offload_without_peer_reinserts (two_node_world node_loaded) 0%nat
           task1 [Some task2; Some task3]);
    [vm_compute; reflexivity ..|].
  right. left. vm_compute. reflexivity.
Defined.

(** C4. An offload is attempted only above the threshold.  When the sampled
    load is at most the threshold (in particular equal to it) the turn pops
    no task, calls [sendMessage] never, and changes inboxes by copies of its
    load update only; conversely a [sendMessage] call or a change of the
    node's task queue implies that the sampled load was strictly above the
    threshold. *)
Theorem offload_only_above_threshold (w : World) (self : addr) :
  (getCurrentLoad (heap w self) ≤ load_threshold_ (heap w self) →
   (∀ a, task_queue_ (heap (loadMonitorTick self w).1 a)
         = task_queue_ (heap w a)) ∧
   (∀ m, CallSend m ∉ (loadMonitorTick self w).2) ∧
   (∀ a, ∃ k, message_queue_ (heap (loadMonitorTick self w).1 a)
              = message_queue_ (heap w a)
                ++ replicate k
                     (Message.setLoadValue (getCurrentLoad (heap w self))
                        (Message.new LOAD_UPDATE (id_ (heap w self)) (-1))))) ∧
  (∀ m, CallSend m ∈ (loadMonitorTick self w).2 →
        getCurrentLoad (heap w self) > load_threshold_ (heap w self)) ∧
  (task_queue_ (heap (loadMonitorTick self w).1 self)
   ≠ task_queue_ (heap w self) →
   getCurrentLoad (heap w self) > load_threshold_ (heap w self)).
Proof.
  assert (getCurrentLoad (heap w self) ≤ load_threshold_ (heap w self) →
          (∀ a, task_queue_ (heap (loadMonitorTick self w).1 a)
                = task_queue_ (heap w a)) ∧
          (∀ a, ∃ k, message_queue_ (heap (loadMonitorTick self w).1 a)
              = message_queue_ (heap w a)
                ++ replicate k
                     (Message.setLoadValue (getCurrentLoad (heap w self))
                        (Message.new LOAD_UPDATE (id_ (heap w self)) (-1)))))
    as Hquiet.
  { intros Hle. rewrite loadMonitorTick_no_offload by done.
    destruct (running_ (heap w self)).
    - destruct (gossip _ _ _) as [w1 calls1] eqn:Hg. simpl.
      destruct (gossip_inv _ _ _ _ _ Hg) as (_ & Hinbox & _ & Hmsgs).
      split; [|done]. intros a.
      by destruct (inbox_only_fields _ _ (Hinbox a)) as (_ & _ & _ & -> & _).
    - simpl. split; [done|]. intros a. exists 0%nat. simpl.
      by rewrite app_nil_r. }
  split_and!.
  - intros Hle. destruct (Hquiet Hle) as [Hq Hmsgs]. split_and!; try done.
    intros m Hin. apply loadMonitorTick_send_inv in Hin as (_ & Hgt & _). lia.
  - intros m Hin. by apply loadMonitorTick_send_inv in Hin as (_ & Hgt & _).
  - intros Hchanged.
    destruct (decide (getCurrentLoad (heap w self)
                      ≤ load_threshold_ (heap w self))) as [Hle|Hgt]; [|lia].
    destruct (Hquiet Hle) as [Hq _]. by destruct Hchanged.
Qed.

(** C4 at a node whose load equals its threshold (two tasks, threshold 2). *)
Lemma offload_only_above_threshold_witness :
  getCurrentLoad node_at_threshold = load_threshold_ node_at_threshold ∧
  (∀ a, task_queue_
          (heap (loadMonitorTick 0%nat (two_node_world node_at_threshold)).1 a)
        = task_queue_ (heap (two_node_world node_at_threshold) a)) ∧
  (∀ m, CallSend m
        ∉ (loadMonitorTick 0%nat (two_node_world node_at_threshold)).2).
Proof.
  split; [vm_compute; reflexivity|].
  destruct (offload_only_above_threshold
              (two_node_world node_at_threshold) 0%nat) as (Hquiet & _ & _).
  destruct Hquiet as (Hq & Hcalls & _); [vm_compute; discriminate|].
  by split.
Defined.

(** What the code does with a transfer to an unregistered peer, at every
    such input: [sendMessage] drops the transfer and returns nothing, and
    [offloadTask] does not put the task back; after the turn the node's
    queue is the queue without its head, no other queue has changed, and
    the inboxes have gained copies of the load update only. *)
Theorem offload_to_unregistered_peer_drops
    (w : World) (self : addr) (task : Task.t)
    (rest : list (shared_ptr Task.t)) :
  running_ (heap w self) = true →
  task_queue_ (heap w self) = Some task :: rest →
  getCurrentLoad (heap w self) > load_threshold_ (heap w self) →
  network_manager_ (heap w self) = true →
  selectBestPeer (set_task_queue rest (heap w self)) ≠ -1 →
  nodes_ (network w) !! selectBestPeer (set_task_queue rest (heap w self))
  = None →
  CallSend (Message.setTask (Some task)
              (Message.new TASK_TRANSFER (id_ (heap w self))
                 (selectBestPeer (set_task_queue rest (heap w self)))))
  ∈ (loadMonitorTick self w).2 ∧
  task_queue_ (heap (loadMonitorTick self w).1 self) = rest ∧
  (∀ a, a ≠ self →
        task_queue_ (heap (loadMonitorTick self w).1 a)
        = task_queue_ (heap w a)) ∧
  (∀ a, ∃ k, message_queue_ (heap (loadMonitorTick self w).1 a)
             = message_queue_ (heap w a)
               ++ replicate k
                    (Message.setLoadValue (getCurrentLoad (heap w self))
                       (Message.new LOAD_UPDATE (id_ (heap w self)) (-1)))).
Proof.
  intros Hrun Hq Hgt Hnet Hpeer Hunknown.
  destruct (gossip self (getCurrentLoad (heap w self)) w)
    as [w1 calls1] eqn:Hg.
  destruct (gossip_inv _ _ _ _ _ Hg) as (Hnm & Hinbox & _ & Hmsgs).
  pose proof (inbox_only_fields _ _ (Hinbox self))
    as (Hid & _ & _ & _ & _ & _ & _ & Hnet1).
  rewrite (loadMonitorTick_offload _ _ _ _ _ _ Hrun Hgt Hq Hg).
  rewrite offloadTask_sends; cycle 1.
  { rewrite heap_with_node_eq.
    by rewrite (selectBestPeer_inbox_only (heap w self)). }
  { rewrite heap_with_node_eq. simpl. congruence. }
  rewrite !heap_with_node_eq.
  rewrite !(selectBestPeer_inbox_only (heap w self) (heap w1 self)) by done.
  simpl id_. rewrite Hid. cbv zeta. simpl fst. simpl snd.
  unfold sendMessage. simpl network. unfold Message.getReceiverId. simpl Message.receiver_id_.
  rewrite Hnm, Hunknown. split_and!.
  - apply elem_of_app. right. apply list_elem_of_here.
  - by rewrite heap_with_node_eq.
  - intros a Hne. rewrite heap_with_node_ne by done.
    by destruct (inbox_only_fields _ _ (Hinbox a)) as (_ & _ & _ & -> & _).
  - intros a. destruct (decide (self = a)) as [<-|Hne].
    + rewrite heap_with_node_eq. apply Hmsgs.
    + rewrite heap_with_node_ne by done. apply Hmsgs.
Qed.

Lemma offload_to_unregistered_peer_drops_witness :
  task_queue_
    (heap (loadMonitorTick 0%nat (two_node_world node_knows_5)).1 0%nat)
  = [Some task2; Some task3].
Proof.
  apply (offload_to_unregistered_peer_drops (two_node_world node_knows_5)
           0%nat task1 [Some task2; Some task3]);
    vm_compute; first [reflexivity|discriminate].
Defined.

(** C2. The code at the failing input: node 0 has recorded a load for the
    id 5, which no node is registered under.  The turn pops task 1,
    addresses its transfer to 5, and leaves node 0 with tasks 2 and 3;
    task 1 is in no queue, where the claim has it back in the queue of
    node 0. *)
Lemma offload_unknown_receiver_counterexample :
  nodes_ (network (two_node_world node_knows_5)) !! 5 = None ∧
  task_queue_ (heap (two_node_world node_knows_5) 0%nat)
  = [Some task1; Some task2; Some task3] ∧
  (loadMonitorTick 0%nat (two_node_world node_knows_5)).2
  = [CallBroadcast 0 (Message.setLoadValue 3 (Message.new LOAD_UPDATE 0 (-1)));
     CallSend (Message.setTask (Some task1) (Message.new TASK_TRANSFER 0 5))] ∧
  task_queue_
    (heap (loadMonitorTick 0%nat (two_node_world node_knows_5)).1 0%nat)
  = [Some task2; Some task3] ∧
  (Some task1
   ∉ task_queue_
       (heap (loadMonitorTick 0%nat (two_node_world node_knows_5)).1 0%nat)) ∧
  task_queue_
    (heap (loadMonitorTick 0%nat (two_node_world node_knows_5)).1 1%nat)
  = [].
Proof.
  split_and!; try (vm_compute; reflexivity).
  assert (task_queue_
            (heap (loadMonitorTick 0%nat (two_node_world node_knows_5)).1 0%nat)
          = [Some task2; Some task3]) as -> by (vm_compute; reflexivity).
  intros Hin.
  repeat (apply elem_of_cons in Hin as [Hin|Hin]; [discriminate|]).
  by apply elem_of_nil in Hin.
Qed.

(** ** Where offload targets come from *)




(** * Further properties of the code *)

(** ** getCurrentLoad and addTask *)

Lemma static_cast_int_small (k : nat) :
  Z.of_nat k < 2 ^ 31 → static_cast_int k = Z.of_nat k.
Proof.
  intros Hk. unfold static_cast_int. cbv zeta.
  rewrite Z.mod_small by lia. by rewrite decide_True.
Qed.

Lemma wrap_int_small (z : Z) : - 2 ^ 31 ≤ z < 2 ^ 31 → wrap_int z = z.
Proof.
  intros Hz. unfold wrap_int. cbv zeta. destruct (decide (0 ≤ z)).
  - rewrite Z.mod_small by lia. rewrite decide_True by lia. done.
  - replace (z mod 2 ^ 32) with (z + 2 ^ 32).
    + rewrite decide_False by lia. lia.
    + apply Z.mod_unique with (-1); lia.
Qed.

(** X1. While the queue is shorter than 2^31 - 1, the load a node reports
    is the number of entries in its queue, [addTask] with a task (not a
    null pointer) raises it by exactly one, and the new task sits behind
    all the tasks that were there. *)
Theorem load_counts_the_queue (n : PeerNode) (task : Task.t) :
  Z.of_nat (length (task_queue_ n)) < 2 ^ 31 - 1 →
  getCurrentLoad n = Z.of_nat (length (task_queue_ n)) ∧
  getCurrentLoad (addTask (Some task) n) = getCurrentLoad n + 1 ∧
  task_queue_ (addTask (Some task) n) = task_queue_ n ++ [Some task].
Proof.
  intros Hlen. unfold getCurrentLoad, addTask. simpl.
  rewrite length_app. simpl.
  rewrite !static_cast_int_small by lia. split_and!; [done|lia|done].
Qed.

Lemma load_counts_the_queue_witness :
  getCurrentLoad (addTask (Some task3) node_at_threshold)
  = getCurrentLoad node_at_threshold + 1.
Proof.
  apply (load_counts_the_queue node_at_threshold task3).
  vm_compute. reflexivity.
Defined.

(** ** workerLoop *)

(** X2. A worker alone on a running node executes the non-null tasks of
    the queue in queue order, each once, leaves the queue empty, adds their
    number to [tasks_processed_] (as long as the counter stays below 2^31)
    and then waits; null entries are popped and not counted.  On a stopped
    node the worker exits at once and the queue stays as it is. *)
Theorem workerLoop_drains_in_order (fuel : nat) (n : PeerNode) :
  (running_ n = true →
   - 2 ^ 31 ≤ tasks_processed_ n →
   tasks_processed_ n + Z.of_nat (length (queued_tasks n)) < 2 ^ 31 →
   (length (task_queue_ n) < fuel)%nat →
   workerLoop fuel n
   = (set_tasks_processed
        (tasks_processed_ n + Z.of_nat (length (queued_tasks n)))
        (set_task_queue [] n),
      queued_tasks n, LoopWaits)) ∧
  (running_ n = false → (0 < fuel)%nat →
   workerLoop fuel n = (n, [], LoopExited)).
Proof.
  split.
  - destruct n as [i th tp q pl ps mq r nm]. simpl. intros ->.
    revert fuel tp. induction q as [|task q IH]; intros fuel tp Hlo Hhi Hfuel.
    + destruct fuel as [|fuel]; [simpl in Hfuel; lia|].
      simpl. unfold set_tasks_processed, set_task_queue. simpl.
      do 3 f_equal. lia.
    + destruct fuel as [|fuel]; [simpl in Hfuel; lia|].
      unfold queued_tasks in *. simpl in Hhi, Hfuel.
      cbn [workerLoop negb running_]. unfold workerTurn. cbn [task_queue_].
      destruct task as [t|]; simpl in Hhi |- *.
      * rewrite wrap_int_small by lia.
        unfold set_tasks_processed, set_task_queue in *. simpl in *.
        change (list_omap (option Task.t) Task.t id q) with (omap id q) in *.
        rewrite (IH fuel (tp + 1)) by lia. simpl.
        do 3 f_equal. lia.
      * unfold set_tasks_processed, set_task_queue in *. simpl in *.
        change (list_omap (option Task.t) Task.t id q) with (omap id q) in *.
        rewrite (IH fuel tp) by lia. done.
  - intros Hstop Hfuel. destruct fuel as [|fuel]; [lia|].
    simpl. by rewrite Hstop.
Qed.

Lemma workerLoop_drains_in_order_witness :
  workerLoop 4 node_loaded
  = (set_tasks_processed
       (tasks_processed_ node_loaded
        + Z.of_nat (length (queued_tasks node_loaded)))
       (set_task_queue [] node_loaded),
     queued_tasks node_loaded, LoopWaits) ∧
  queued_tasks node_loaded = [task1; task2; task3].
Proof.
  split; [|vm_compute; reflexivity].
  destruct (workerLoop_drains_in_order 4 node_loaded) as [Hrun _].
  apply Hrun; vm_compute; first [reflexivity|discriminate|lia].
Defined.

(** ** start and stop *)

Lemma startThreads_match p :
  threads_match p →
  ∃ p', startThreads p = Some p' ∧ threads_match p' ∧
        running_ p'.1 = true ∧ p'.1 = start p.1.
Proof.
  destruct p as [n th]. unfold threads_match, startThreads, start. simpl.
  destruct (running_ n) eqn:Hrun; intros ->; simpl.
  - eexists. split; [done|]. simpl. by rewrite Hrun.
  - eexists. split; [done|]. simpl. done.
Qed.

Lemma stopThreads_match p :
  threads_match p →
  threads_match (stopThreads p) ∧
  running_ (stopThreads p).1 = false ∧ (stopThreads p).1 = stop p.1 ∧
  (stopThreads p).2 = no_threads.
Proof.
  destruct p as [n th]. unfold threads_match, stopThreads, stop. simpl.
  destruct (running_ n) eqn:Hrun; intros ->; simpl; [done|].
  by rewrite Hrun.
Qed.

Lemma lifecycle_match calls p :
  threads_match p →
  ∃ p', lifecycle calls p = Some p' ∧ threads_match p' ∧
        p'.1 = set_running (running_ p'.1) p.1.
Proof.
  revert p. induction calls as [|[|] calls IH]; intros p Hp; simpl.
  - exists p. split_and!; [done..|]. by destruct p as [[] ?].
  - destruct (startThreads_match p Hp) as (p1 & -> & Hp1 & _ & Hn1).
    destruct (IH p1 Hp1) as (p' & -> & Hp' & Hn').
    exists p'. split_and!; [done..|]. rewrite Hn', Hn1.
    unfold start. by destruct (running_ p.1).
  - destruct (stopThreads_match p Hp) as (Hp1 & _ & Hn1 & _).
    destruct (IH _ Hp1) as (p' & -> & Hp' & Hn').
    exists p'. split_and!; [done..|]. rewrite Hn', Hn1.
    unfold stop. by destruct (running_ p.1).
Qed.

Lemma lifecycle_app calls1 calls2 p :
  lifecycle (calls1 ++ calls2) p
  = match lifecycle calls1 p with
    | Some p' => lifecycle calls2 p'
    | None => None
    end.
Proof.
  revert p. induction calls1 as [|[|] calls1 IH]; intros p; simpl; [done| |].
  - by destruct (startThreads p).
  - apply IH.
Qed.

(** X3. Whatever sequence of [start] and [stop] calls a freshly constructed
    node receives, no call reaches [std::terminate], the node changes in
    its [running_] flag only, and its threads are those of its state: two
    workers, the monitor and the pump while it runs, none while it is
    stopped.  In particular a repeated [start] spawns nothing, and a
    history that ends in [stop] leaves no thread and one that ends in
    [start] leaves exactly two workers. *)
Theorem lifecycle_keeps_threads_in_step
    (calls : list LifecycleCall) (id load_threshold : Z) (nm : bool) :
  let fresh := (PeerNode_new id load_threshold nm, no_threads) in
  (∃ p, lifecycle calls fresh = Some p ∧ threads_match p ∧
        p.1 = set_running (running_ p.1) fresh.1) ∧
  (∃ p, lifecycle (calls ++ [DoStart; DoStart]) fresh = Some p ∧
        running_ p.1 = true ∧ worker_threads_ p.2 = 2%nat ∧
        lifecycle (calls ++ [DoStart]) fresh = Some p) ∧
  (∃ p, lifecycle (calls ++ [DoStop]) fresh = Some p ∧
        running_ p.1 = false ∧ p.2 = no_threads).
Proof.
  intros fresh. assert (threads_match fresh) as Hfresh by done.
  destruct (lifecycle_match calls fresh Hfresh) as (p & Hp & Hmatch & Hnode).
  split_and!.
  - by exists p.
  - destruct (startThreads_match p Hmatch) as (p1 & Hp1 & Hm1 & Hrun1 & _).
    exists p1. rewrite !lifecycle_app, Hp. simpl. rewrite Hp1.
    assert (startThreads p1 = Some p1) as ->.
    { destruct p1 as [n1 th1]. simpl in *. by rewrite Hrun1. }
    split_and!; try done.
    unfold threads_match in Hm1. rewrite Hrun1 in Hm1. by rewrite Hm1.
  - destruct (stopThreads_match p Hmatch) as (_ & Hrun1 & _ & Hth).
    exists (stopThreads p). rewrite lifecycle_app, Hp. done.
Qed.

(** ** The message pump *)

Lemma dispatchMessage_set_message_queue m q n :
  dispatchMessage m (set_message_queue q n)
  = set_message_queue q (dispatchMessage m n).
Proof.
  unfold dispatchMessage. destruct (Message.getType m); try done.
  - by destruct (non_null _).
  - unfold addPeer. simpl. by destruct (decide _).
Qed.

Lemma dispatchMessage_message_queue m n :
  message_queue_ (dispatchMessage m n) = message_queue_ n.
Proof.
  unfold dispatchMessage. destruct (Message.getType m); try done.
  - by destruct (non_null _).
  - unfold addPeer. by destruct (decide _).
Qed.

Lemma messageProcessorStep_running n :
  running_ (messageProcessorStep n) = running_ n.
Proof.
  unfold messageProcessorStep.
  destruct (message_queue_ n) as [|m rest]; [done|].
  unfold dispatchMessage. destruct (Message.getType m); try done.
  - by destruct (non_null _).
  - unfold addPeer. by destruct (decide _).
Qed.

(** A running node: the loop handles the whole inbox and waits. *)
Lemma messageProcessorLoop_running fuel n :
  running_ n = true →
  (length (message_queue_ n) < fuel)%nat →
  messageProcessorLoop fuel n
  = (foldl (λ n' m, dispatchMessage m n') (set_message_queue [] n)
       (message_queue_ n), LoopWaits).
Proof.
  remember (message_queue_ n) as msgs eqn:Hmq.
  revert n fuel Hmq. induction msgs as [|m msgs IH];
    intros n fuel Hmq Hrun Hfuel;
    (destruct fuel as [|fuel]; [simpl in Hfuel; lia|]);
    cbn [messageProcessorLoop]; rewrite Hrun; cbn [negb]; rewrite <- Hmq.
  - simpl. f_equal. destruct n. simpl in Hmq. by subst.
  - assert (messageProcessorStep n
            = dispatchMessage m (set_message_queue msgs n)) as Hstep
      by (unfold messageProcessorStep; by rewrite <- Hmq).
    rewrite (IH (messageProcessorStep n) fuel).
    + rewrite Hstep. simpl.
      by rewrite <- (dispatchMessage_set_message_queue m []
                       (set_message_queue msgs n)).
    + by rewrite Hstep, dispatchMessage_message_queue.
    + by rewrite messageProcessorStep_running.
    + simpl in Hfuel. lia.
Qed.

(** A stopped node: the loop is left at its head. *)
Lemma messageProcessorLoop_stopped fuel n :
  running_ n = false → (0 < fuel)%nat →
  messageProcessorLoop fuel n = (n, LoopExited).
Proof.
  intros Hstop Hfuel. destruct fuel as [|fuel]; [lia|].
  simpl. by rewrite Hstop.
Qed.

Lemma pumpAll_foldl n :
  running_ n = true →
  pumpAll n
  = foldl (λ n' m, dispatchMessage m n') (set_message_queue [] n)
      (message_queue_ n).
Proof.
  intros Hrun. unfold pumpAll.
  rewrite messageProcessorLoop_running; [done..|lia].
Qed.

Lemma pumpAll_stopped n : running_ n = false → pumpAll n = n.
Proof.
  intros Hstop. unfold pumpAll.
  rewrite messageProcessorLoop_stopped; [done..|lia].
Qed.

Lemma foldl_dispatch_message_queue msgs n :
  message_queue_ (foldl (λ n' m, dispatchMessage m n') n msgs)
  = message_queue_ n.
Proof.
  revert n. induction msgs as [|m msgs IH]; intros n; [done|].
  simpl. by rewrite IH, dispatchMessage_message_queue.
Qed.

(** X4. The pump of a running node handles the inbox in arrival order:
    with enough fuel the loop ends waiting, on the left fold of the
    dispatch over the inbox, with the inbox empty; and a message delivered
    behind the others is dispatched after them: delivering then pumping is
    pumping then dispatching.  The pump of a node that is not running
    leaves the loop at its head: the node, its inbox included, stays as it
    is. *)
Theorem pump_is_first_in_first_out
    (fuel : nat) (n : PeerNode) (m : Message.t) :
  (running_ n = true →
   ((length (message_queue_ n) < fuel)%nat →
    messageProcessorLoop fuel n
    = (foldl (λ n' m', dispatchMessage m' n') (set_message_queue [] n)
         (message_queue_ n), LoopWaits)) ∧
   pumpAll n
   = foldl (λ n' m', dispatchMessage m' n') (set_message_queue [] n)
       (message_queue_ n) ∧
   message_queue_ (pumpAll n) = [] ∧
   pumpAll (handleMessage m n) = dispatchMessage m (pumpAll n)) ∧
  (running_ n = false →
   ((0 < fuel)%nat → messageProcessorLoop fuel n = (n, LoopExited)) ∧
   pumpAll n = n ∧
   pumpAll (handleMessage m n) = handleMessage m n).
Proof.
  split.
  - intros Hrun. split_and!.
    + by apply messageProcessorLoop_running.
    + by apply pumpAll_foldl.
    + by rewrite pumpAll_foldl, foldl_dispatch_message_queue.
    + rewrite !pumpAll_foldl by done. unfold handleMessage. simpl.
      by rewrite foldl_app.
  - intros Hstop. split_and!.
    + by apply messageProcessorLoop_stopped.
    + by apply pumpAll_stopped.
    + by apply pumpAll_stopped.
Qed.

(** X4 on the running node 0 after two deliveries, and on the same node
    stopped. *)
Lemma pump_is_first_in_first_out_witness :
  message_queue_
    (pumpAll (handleMessage (Message.new PEER_DISCOVERY 4 0)
                (handleMessage (Message.new PEER_DISCOVERY 3 0) node_loaded)))
  = [] ∧
  peers_
    (pumpAll (handleMessage (Message.new PEER_DISCOVERY 4 0)
                (handleMessage (Message.new PEER_DISCOVERY 3 0) node_loaded)))
  = [3; 4] ∧
  pumpAll (handleMessage (Message.new PEER_DISCOVERY 4 0) (stop node_loaded))
  = handleMessage (Message.new PEER_DISCOVERY 4 0) (stop node_loaded).
Proof.
  split_and!; [|vm_compute; reflexivity|].
  - destruct (pump_is_first_in_first_out 3
                (handleMessage (Message.new PEER_DISCOVERY 4 0)
                   (handleMessage (Message.new PEER_DISCOVERY 3 0) node_loaded))
                (Message.new PEER_DISCOVERY 4 0)) as [Hrun _].
    apply Hrun. vm_compute. reflexivity.
  - destruct (pump_is_first_in_first_out 1 (stop node_loaded)
                (Message.new PEER_DISCOVERY 4 0)) as [_ Hstop].
    apply Hstop. vm_compute. reflexivity.
Defined.

(** X5. A LOAD_UPDATE is an upsert on the view: after its dispatch the
    sender's entry is the load it carried and every other entry is as
    before; of two updates from one sender the later one wins; the task
    queue and the peer list are not touched. *)
Theorem load_update_upserts (n : PeerNode) (m1 m2 : Message.t) :
  Message.getType m1 = LOAD_UPDATE →
  Message.getType m2 = LOAD_UPDATE →
  peer_loads_ (dispatchMessage m1 n) !! Message.getSenderId m1
  = Some (Message.getLoadValue m1) ∧
  (∀ k, k ≠ Message.getSenderId m1 →
        peer_loads_ (dispatchMessage m1 n) !! k = peer_loads_ n !! k) ∧
  (Message.getSenderId m1 = Message.getSenderId m2 →
   peer_loads_ (dispatchMessage m2 (dispatchMessage m1 n))
   = peer_loads_ (dispatchMessage m2 n)) ∧
  task_queue_ (dispatchMessage m1 n) = task_queue_ n ∧
  peers_ (dispatchMessage m1 n) = peers_ n.
Proof.
  intros Hty1 Hty2. unfold dispatchMessage. rewrite Hty1, Hty2. simpl.
  split_and!; try done.
  - apply lookup_insert_eq.
  - intros k Hne. by apply lookup_insert_ne.
  - intros ->. apply insert_insert_eq.
Qed.

Lemma load_update_upserts_witness :
  peer_loads_
    (dispatchMessage (Message.setLoadValue 4 (Message.new LOAD_UPDATE 5 (-1)))
       node_knows_5) !! 5
  = Some 4.
Proof.
  apply (load_update_upserts node_knows_5
           (Message.setLoadValue 4 (Message.new LOAD_UPDATE 5 (-1)))
           (Message.setLoadValue 4 (Message.new LOAD_UPDATE 5 (-1))));
    reflexivity.
Defined.

Lemma queued_tasks_dispatch m n :
  queued_tasks (dispatchMessage m n)
  = queued_tasks n ++ option_list (transferred_task m).
Proof.
  unfold dispatchMessage, transferred_task, queued_tasks.
  destruct (Message.getType m); simpl; rewrite ?app_nil_r; try done.
  - destruct (Message.getTask m) as [t|]; simpl.
    + by rewrite omap_app.
    + by rewrite app_nil_r.
  - unfold addPeer. by destruct (decide _).
Qed.

Lemma queued_tasks_foldl_dispatch msgs n :
  queued_tasks (foldl (λ n' m, dispatchMessage m n') n msgs)
  = queued_tasks n ++ omap transferred_task msgs.
Proof.
  revert n. induction msgs as [|m msgs IH]; intros n; simpl.
  - by rewrite app_nil_r.
  - rewrite IH, queued_tasks_dispatch, <- app_assoc. f_equal.
    by destruct (transferred_task m).
Qed.

(** X6. The pump neither loses nor invents a task: one pass through its
    body keeps the tasks a node holds (queued or waiting in a transfer) up
    to order, and the loop keeps them on every node.  On a running node it
    leaves nothing in flight and the queue is the old queue followed by the
    transferred tasks in arrival order; on a node that is not running
    every transfer stays in the inbox. *)
Theorem pump_conserves_tasks (n : PeerNode) :
  held (messageProcessorStep n) ≡ₚ held n ∧
  held (pumpAll n) = held n ∧
  (running_ n = true →
   queued_tasks (pumpAll n) = queued_tasks n ++ in_flight n ∧
   in_flight (pumpAll n) = []) ∧
  (running_ n = false →
   queued_tasks (pumpAll n) = queued_tasks n ∧
   in_flight (pumpAll n) = in_flight n).
Proof.
  assert (running_ n = true →
          queued_tasks (pumpAll n) = queued_tasks n ++ in_flight n ∧
          in_flight (pumpAll n) = []) as Hrunning.
  { intros Hrun. split.
    - by rewrite pumpAll_foldl, queued_tasks_foldl_dispatch.
    - unfold in_flight.
      by rewrite pumpAll_foldl, foldl_dispatch_message_queue. }
  split_and!.
  - unfold held, messageProcessorStep, in_flight.
    destruct (message_queue_ n) as [|m rest] eqn:Hmq; [by rewrite Hmq|].
    rewrite queued_tasks_dispatch, dispatchMessage_message_queue. simpl.
    change (queued_tasks (set_message_queue rest n)) with (queued_tasks n).
    rewrite <- app_assoc. apply Permutation_app_head.
    by destruct (transferred_task m).
  - destruct (running_ n) eqn:Hrun.
    + destruct (Hrunning eq_refl) as [Hq Hfl].
      unfold held. by rewrite Hq, Hfl, app_nil_r.
    + by rewrite pumpAll_stopped.
  - done.
  - intros Hstop. by rewrite pumpAll_stopped.
Qed.

(** X6 on the running node 0 with a transfer of task 3 in its inbox, and
    on the same node stopped. *)
Lemma pump_conserves_tasks_witness :
  queued_tasks
    (pumpAll (handleMessage
                (Message.setTask (Some task3) (Message.new TASK_TRANSFER 1 0))
                node_at_threshold))
  = [task1; task2; task3] ∧
  in_flight
    (pumpAll (handleMessage
                (Message.setTask (Some task3) (Message.new TASK_TRANSFER 1 0))
                (stop node_at_threshold)))
  = [task3].
Proof.
  split.
  - destruct (pump_conserves_tasks
                (handleMessage
                   (Message.setTask (Some task3)
                      (Message.new TASK_TRANSFER 1 0))
                   node_at_threshold)) as (_ & _ & Hrun & _).
    destruct Hrun as [-> _]; vm_compute; reflexivity.
  - destruct (pump_conserves_tasks
                (handleMessage
                   (Message.setTask (Some task3)
                      (Message.new TASK_TRANSFER 1 0))
                   (stop node_at_threshold))) as (_ & _ & _ & Hstop).
    destruct Hstop as [_ ->]; vm_compute; reflexivity.
Defined.

Lemma pumpAll_rel (R : PeerNode → PeerNode → Prop) :
  (∀ n, R n n) → (∀ n1 n2 n3, R n1 n2 → R n2 n3 → R n1 n3) →
  (∀ q n, R n (set_message_queue q n)) →
  (∀ m n, R n (dispatchMessage m n)) →
  ∀ n, R n (pumpAll n).
Proof.
  intros Hrefl Htrans Hset Hstep n.
  destruct (running_ n) eqn:Hrun; [|by rewrite pumpAll_stopped].
  rewrite pumpAll_foldl by done.
  apply Htrans with (set_message_queue [] n); [apply Hset|].
  generalize (set_message_queue [] n) as n0.
  induction (message_queue_ n) as [|m msgs IH]; intros n0; simpl.
  - apply Hrefl.
  - eapply Htrans; [apply Hstep|apply IH].
Qed.

Lemma dispatchMessage_peers_prefix m n :
  peers_ n `prefix_of` peers_ (dispatchMessage m n).
Proof.
  unfold dispatchMessage. destruct (Message.getType m); try done.
  - by destruct (non_null _).
  - unfold addPeer. destruct (decide _); [done|]. simpl.
    by apply prefix_app_r.
Qed.

Lemma dispatchMessage_peers_NoDup m n :
  NoDup (peers_ n) → NoDup (peers_ (dispatchMessage m n)).
Proof.
  unfold dispatchMessage. destruct (Message.getType m); try done.
  - by destruct (non_null _).
  - unfold addPeer. destruct (decide _) as [|Hnew]; [done|]. simpl.
    intros Hnd. apply NoDup_app. split_and!; [done| |apply NoDup_singleton].
    intros p Hp [= ->]%list_elem_of_singleton. done.
Qed.

Lemma dispatchMessage_constants m n :
  id_ (dispatchMessage m n) = id_ n ∧
  load_threshold_ (dispatchMessage m n) = load_threshold_ n ∧
  tasks_processed_ (dispatchMessage m n) = tasks_processed_ n ∧
  running_ (dispatchMessage m n) = running_ n ∧
  network_manager_ (dispatchMessage m n) = network_manager_ n.
Proof.
  unfold dispatchMessage. destruct (Message.getType m); try done.
  - by destruct (non_null _).
  - unfold addPeer. by destruct (decide _).
Qed.

(** X7. The pump only adds to what a node knows: whatever the inbox holds,
    the peer list after pumping starts with the old peer list and has no
    duplicates if the old one had none, no entry of the load view is
    removed, and the id, the threshold, the counter of processed tasks and
    the running flag are as before. *)
Theorem pump_only_adds_knowledge (n : PeerNode) :
  peers_ n `prefix_of` peers_ (pumpAll n) ∧
  (NoDup (peers_ n) → NoDup (peers_ (pumpAll n))) ∧
  (∀ k, is_Some (peer_loads_ n !! k) →
        is_Some (peer_loads_ (pumpAll n) !! k)) ∧
  id_ (pumpAll n) = id_ n ∧
  load_threshold_ (pumpAll n) = load_threshold_ n ∧
  tasks_processed_ (pumpAll n) = tasks_processed_ n ∧
  running_ (pumpAll n) = running_ n.
Proof.
  split_and!.
  - apply (pumpAll_rel (λ n1 n2, peers_ n1 `prefix_of` peers_ n2));
      [done|by intros; etrans|done|].
    intros m n0. apply dispatchMessage_peers_prefix.
  - apply (pumpAll_rel (λ n1 n2, NoDup (peers_ n1) → NoDup (peers_ n2)));
      [done|by auto|done|].
    intros m n0. apply dispatchMessage_peers_NoDup.
  - apply (pumpAll_rel
             (λ n1 n2, ∀ k, is_Some (peer_loads_ n1 !! k) →
                            is_Some (peer_loads_ n2 !! k)));
      [done|by auto|done|].
    intros m n0 k Hk. unfold dispatchMessage.
    destruct (Message.getType m); try done.
    + simpl. destruct (decide (Message.getSenderId m = k)) as [->|Hne].
      * rewrite lookup_insert_eq. by eexists.
      * by rewrite lookup_insert_ne.
    + by destruct (non_null _).
    + unfold addPeer. by destruct (decide _).
  - apply (pumpAll_rel (λ n1 n2, id_ n2 = id_ n1));
      [done|by intros ??? -> ->|done|].
    intros m n0. apply dispatchMessage_constants.
  - apply (pumpAll_rel (λ n1 n2, load_threshold_ n2 = load_threshold_ n1));
      [done|by intros ??? -> ->|done|].
    intros m n0. apply dispatchMessage_constants.
  - apply (pumpAll_rel (λ n1 n2, tasks_processed_ n2 = tasks_processed_ n1));
      [done|by intros ??? -> ->|done|].
    intros m n0. apply dispatchMessage_constants.
  - apply (pumpAll_rel (λ n1 n2, running_ n2 = running_ n1));
      [done|by intros ??? -> ->|done|].
    intros m n0. apply dispatchMessage_constants.
Qed.

Lemma pump_only_adds_knowledge_witness :
  NoDup (peers_
           (pumpAll (handleMessage (Message.new PEER_DISCOVERY 4 0)
                       (handleMessage (Message.new PEER_DISCOVERY 4 0)
                          node_loaded)))).
Proof.
  apply (pump_only_adds_knowledge
           (handleMessage (Message.new PEER_DISCOVERY 4 0)
              (handleMessage (Message.new PEER_DISCOVERY 4 0) node_loaded))).
  vm_compute. apply NoDup_nil_2.
Defined.

(** ** registerNode, sendMessage, getAllNodeIds *)

Lemma sendMessage_known m w a :
  nodes_ (network w) !! Message.getReceiverId m = Some a →
  sendMessage m w = with_node a (handleMessage m) w.
Proof. intros Hk. unfold sendMessage. by rewrite Hk. Qed.

Lemma sendMessage_unknown m w :
  nodes_ (network w) !! Message.getReceiverId m = None → sendMessage m w = w.
Proof. intros Hk. unfold sendMessage. by rewrite Hk. Qed.

Lemma sendMessage_network m w : network (sendMessage m w) = network w.
Proof. unfold sendMessage. by destruct (_ !! _). Qed.

(** X8. Registering an id again replaces its node: a later unicast to the
    id reaches the node registered last and not the one registered first,
    the two registrations are the same registry as the last alone, and the
    routing of every other id is as before. *)
Theorem registerNode_overwrites
    (w : World) (k : Z) (first last : addr) (m : Message.t) :
  Message.getReceiverId m = k →
  let w' := sendMessage m (registerNode k last (registerNode k first w)) in
  heap w' last = handleMessage m (heap w last) ∧
  (first ≠ last → heap w' first = heap w first) ∧
  registerNode k last (registerNode k first w) = registerNode k last w ∧
  (∀ k', k' ≠ k →
         nodes_ (network w') !! k' = nodes_ (network w) !! k').
Proof.
  intros Hk w'. subst w'.
  rewrite (sendMessage_known _ _ last)
    by (rewrite Hk; simpl; apply lookup_insert_eq).
  split_and!.
  - by rewrite heap_with_node_eq.
  - intros Hne. by rewrite heap_with_node_ne.
  - unfold registerNode. simpl. by rewrite insert_insert_eq.
  - intros k' Hne. simpl. by rewrite !lookup_insert_ne.
Qed.

Lemma registerNode_overwrites_witness :
  heap (sendMessage (Message.new TASK_REQUEST 0 1)
          (registerNode 1 0%nat (registerNode 1 1%nat
             (two_node_world node_loaded)))) 0%nat
  = handleMessage (Message.new TASK_REQUEST 0 1)
      (heap (two_node_world node_loaded) 0%nat).
Proof.
  apply (registerNode_overwrites (two_node_world node_loaded) 1 1%nat 0%nat
           (Message.new TASK_REQUEST 0 1)).
  reflexivity.
Defined.

(** X9. A unicast touches one inbox or nothing: to a registered id it
    appends the message to the inbox of that id's node and changes no other
    node; to an unknown id it leaves the whole store as it was; the
    registry is never changed.  Two unicasts to one node arrive in the
    order sent. *)
Theorem sendMessage_delivers_in_order (w : World) (m1 m2 : Message.t) :
  (∀ a, nodes_ (network w) !! Message.getReceiverId m1 = Some a →
        message_queue_ (heap (sendMessage m1 w) a)
        = message_queue_ (heap w a) ++ [m1] ∧
        inbox_only (heap w a) (heap (sendMessage m1 w) a) ∧
        (∀ b, b ≠ a → heap (sendMessage m1 w) b = heap w b)) ∧
  (nodes_ (network w) !! Message.getReceiverId m1 = None →
   sendMessage m1 w = w) ∧
  network (sendMessage m1 w) = network w ∧
  (∀ a, nodes_ (network w) !! Message.getReceiverId m1 = Some a →
        nodes_ (network w) !! Message.getReceiverId m2 = Some a →
        message_queue_ (heap (sendMessage m2 (sendMessage m1 w)) a)
        = message_queue_ (heap w a) ++ [m1; m2]).
Proof.
  split_and!.
  - intros a Ha. rewrite (sendMessage_known _ _ a) by done. split_and!.
    + by rewrite heap_with_node_eq.
    + rewrite heap_with_node_eq.
      apply inbox_only_handleMessage, inbox_only_refl.
    + intros b Hne. by rewrite heap_with_node_ne.
  - apply sendMessage_unknown.
  - apply sendMessage_network.
  - intros a Ha1 Ha2.
    rewrite (sendMessage_known m2 _ a) by (by rewrite sendMessage_network).
    rewrite (sendMessage_known m1 _ a) by done.
    rewrite !heap_with_node_eq. simpl. by rewrite <- app_assoc.
Qed.

Lemma sendMessage_delivers_in_order_witness :
  message_queue_
    (heap (sendMessage (Message.new TASK_REQUEST 0 1)
             (sendMessage (Message.new PEER_DISCOVERY 0 1)
                (two_node_world node_loaded))) 1%nat)
  = message_queue_ (heap (two_node_world node_loaded) 1%nat)
    ++ [Message.new PEER_DISCOVERY 0 1; Message.new TASK_REQUEST 0 1].
Proof.
  destruct (sendMessage_delivers_in_order (two_node_world node_loaded)
              (Message.new PEER_DISCOVERY 0 1) (Message.new TASK_REQUEST 0 1))
    as (_ & _ & _ & Horder).
  apply Horder; vm_compute; reflexivity.
Defined.

Lemma elem_of_getAllNodeIds nm k :
  k ∈ getAllNodeIds nm ↔ is_Some (nodes_ nm !! k).
Proof.
  unfold getAllNodeIds. rewrite list_elem_of_fmap. split.
  - intros ([k' a] & -> & Hin). apply elem_of_map_iter in Hin. by exists a.
  - intros [a Ha]. exists (k, a). split; [done|]. by apply elem_of_map_iter.
Qed.

Lemma getAllNodeIds_sorted nm : StronglySorted Z.lt (getAllNodeIds nm).
Proof.
  unfold getAllNodeIds.
  apply (StronglySorted_fmap fst key_lt Z.lt); [done|].
  apply map_iter_ascending_keys.
Qed.

(** X10. [getAllNodeIds] lists exactly the registered ids, in strictly
    ascending order (so each once), as many as the registry has entries.
    Registering [k] adds [k] to the ids and nothing else, and registering
    an id that is already there leaves the list as it was. *)
Theorem getAllNodeIds_lists_the_registry (w : World) (k : Z) (a : addr) :
  let ids := getAllNodeIds (network w) in
  StronglySorted Z.lt ids ∧
  NoDup ids ∧
  (∀ k', k' ∈ ids ↔ is_Some (nodes_ (network w) !! k')) ∧
  length ids = size (nodes_ (network w)) ∧
  (∀ k', k' ∈ getAllNodeIds (network (registerNode k a w))
         ↔ k' = k ∨ k' ∈ ids) ∧
  (is_Some (nodes_ (network w) !! k) →
   getAllNodeIds (network (registerNode k a w)) = ids).
Proof.
  intros ids. subst ids.
  assert (∀ k', k' ∈ getAllNodeIds (network (registerNode k a w))
                ↔ k' = k ∨ k' ∈ getAllNodeIds (network w)) as Hreg.
  { intros k'. rewrite !elem_of_getAllNodeIds. simpl.
    destruct (decide (k = k')) as [->|Hne].
    - rewrite lookup_insert_eq. split; [by left|by eexists].
    - rewrite lookup_insert_ne by done. split; [by right|].
      by intros [->|?]. }
  split_and!.
  - apply getAllNodeIds_sorted.
  - apply map_iter_NoDup_keys.
  - apply elem_of_getAllNodeIds.
  - unfold getAllNodeIds, map_iter.
    by rewrite length_fmap, merge_sort_Permutation, length_map_to_list.
  - apply Hreg.
  - intros Hk.
    apply (StronglySorted_unique_strong Z.lt);
      [intros; lia|apply getAllNodeIds_sorted..|].
    apply NoDup_Permutation; [apply map_iter_NoDup_keys..|].
    intros k'. rewrite Hreg. split; [|by right].
    intros [->|?]; [|done]. by apply elem_of_getAllNodeIds.
Qed.

Lemma getAllNodeIds_lists_the_registry_witness :
  getAllNodeIds (network (registerNode 1 5%nat (two_node_world node_loaded)))
  = getAllNodeIds (network (two_node_world node_loaded)) ∧
  getAllNodeIds (network (two_node_world node_loaded)) = [0; 1].
Proof.
  split; [|vm_compute; reflexivity].
  apply (getAllNodeIds_lists_the_registry (two_node_world node_loaded) 1 5%nat).
  vm_compute. by eexists.
Defined.

(** ** Where the tasks are after a turn of the load monitor *)

Lemma two_node_world_registry n k a :
  nodes_ (network (two_node_world n)) !! k = Some a
  ↔ (k = 0 ∧ a = 0%nat) ∨ (k = 1 ∧ a = 1%nat).
Proof.
  simpl. destruct (decide (k = 1)) as [->|Hne1].
  { rewrite lookup_insert_eq. split; [intros [= <-]; by right|].
    by intros [[? _]|[_ ->]]. }
  rewrite lookup_insert_ne by done.
  destruct (decide (k = 0)) as [->|Hne0].
  { rewrite lookup_insert_eq. split; [intros [= <-]; by left|].
    by intros [[_ ->]|[? _]]. }
  rewrite lookup_insert_ne, lookup_empty by done.
  split; [done|]. by intros [[? _]|[? _]].
Qed.

Lemma omap_replicate_None {A B} (f : A → option B) (k : nat) (x : A) :
  f x = None → omap f (replicate k x) = [].
Proof. intros Hx. induction k as [|k IH]; [done|]. simpl. by rewrite Hx. Qed.

Lemma gossip_held self d w w1 calls1 a :
  gossip self d w = (w1, calls1) → held (heap w1 a) = held (heap w a).
Proof.
  intros Hg. destruct (gossip_inv _ _ _ _ _ Hg) as (_ & Hinbox & _ & Hmsgs).
  destruct (inbox_only_fields _ _ (Hinbox a)) as (_ & _ & _ & Hq & _).
  destruct (Hmsgs a) as [k Hk].
  unfold held, queued_tasks, in_flight. rewrite Hq, Hk, omap_app.
  by rewrite omap_replicate_None, app_nil_r.
Qed.

(** The store a turn leaves, in terms of the store [w1] after its gossip:
    [w1] itself, [w1] with a null head popped, or what [offloadTask] makes
    of [w1] with the head popped. *)
Lemma loadMonitorTick_shape self w :
  ∃ w1,
    (∀ a, held (heap w1 a) = held (heap w a)) ∧
    (∀ a, inbox_only (heap w a) (heap w1 a)) ∧
    network w1 = network w ∧
    ((loadMonitorTick self w).1 = w1 ∨
     (∃ rest, task_queue_ (heap w self) = None :: rest ∧
              (loadMonitorTick self w).1
              = with_node self (set_task_queue rest) w1) ∨
     (∃ task rest,
        task_queue_ (heap w self) = Some task :: rest ∧
        (loadMonitorTick self w).1
        = (offloadTask self (Some task)
             (with_node self (set_task_queue rest) w1)).1)).
Proof.
  unfold loadMonitorTick. destruct (running_ (heap w self)); simpl.
  2:{ exists w. split_and!; [done|intros a; apply inbox_only_refl|done|by left]. }
  destruct (gossip _ _ _) as [w1 calls1] eqn:Hg.
  destruct (gossip_inv _ _ _ _ _ Hg) as (Hnm & Hinbox & _ & _).
  exists w1. split_and!; [intros a; by eapply gossip_held|done..|].
  destruct (decide _); [|by left].
  destruct (inbox_only_fields _ _ (Hinbox self)) as (_ & _ & _ & -> & _).
  destruct (task_queue_ (heap w self)) as [|[task|] rest]; simpl.
  - by left.
  - right. right. exists task, rest. split; [done|].
    by destruct (offloadTask _ _ _).
  - right. left. by exists rest.
Qed.

Lemma bind_pointwise_Permutation {A B} (f f' : A → list B) (l : list A) :
  (∀ x, x ∈ l → f' x ≡ₚ f x) → l ≫= f' ≡ₚ l ≫= f.
Proof.
  induction l as [|x l IH]; intros Hf; [done|].
  rewrite !bind_cons. rewrite (Hf x) by apply list_elem_of_here.
  rewrite IH; [done|]. intros y Hy. by apply Hf, list_elem_of_further.
Qed.

Lemma bind_two_points_Permutation {A B} (f f' : A → list B) (l : list A) x y :
  NoDup l → x ∈ l → y ∈ l → x ≠ y →
  (∀ z, z ≠ x → z ≠ y → f' z = f z) →
  f' x ++ f' y ≡ₚ f x ++ f y →
  l ≫= f' ≡ₚ l ≫= f.
Proof.
  intros Hnd Hx Hy Hne Hrest Hxy.
  apply elem_of_Permutation in Hx as [l1 Hl1].
  assert (y ∈ l1) as [l2 Hl2]%elem_of_Permutation.
  { rewrite Hl1 in Hy. by apply elem_of_cons in Hy as [|]. }
  assert (l ≡ₚ x :: y :: l2) as Hl by (by rewrite Hl1, Hl2).
  rewrite Hl in Hnd. apply NoDup_cons in Hnd as [Hx' Hnd].
  apply NoDup_cons in Hnd as [Hy' _].
  rewrite !Hl, !bind_cons, !app_assoc, Hxy.
  apply Permutation_app_head, bind_pointwise_Permutation.
  intros z Hz. rewrite Hrest; [done| |]; intros ->.
  - apply Hx'. by apply list_elem_of_further.
  - done.
Qed.

(** X11. A turn of the load monitor neither loses nor duplicates a task
    when every peer in the node's load view is registered: over any
    duplicate-free list of nodes that contains the node and every
    registered node, the tasks held (queued or waiting in a transfer) are
    the same before and after the turn, up to order. *)
Theorem tick_conserves_tasks (w : World) (self : addr) (nodes : list addr) :
  NoDup nodes →
  self ∈ nodes →
  (∀ k a, nodes_ (network w) !! k = Some a → a ∈ nodes) →
  (∀ k, is_Some (peer_loads_ (heap w self) !! k) →
        is_Some (nodes_ (network w) !! k)) →
  held_at nodes (loadMonitorTick self w).1 ≡ₚ held_at nodes w.
Proof.
  intros Hnd Hself Hreg Hview. unfold held_at.
  destruct (loadMonitorTick_shape self w)
    as (w1 & Hheld & Hinbox & Hnm & [->|[(rest & Hq & ->)|(task & rest & Hq & ->)]]).
  - apply bind_pointwise_Permutation. intros a _. by rewrite Hheld.
  - apply bind_pointwise_Permutation. intros a _.
    destruct (decide (self = a)) as [<-|Hne].
    + rewrite heap_with_node_eq, <- Hheld. unfold held, queued_tasks. simpl.
      destruct (inbox_only_fields _ _ (Hinbox self)) as (_ & _ & _ & -> & _).
      by rewrite Hq.
    + by rewrite heap_with_node_ne, Hheld.
  - pose proof (inbox_only_fields _ _ (Hinbox self))
      as (_ & _ & _ & Hq1 & Hpl1 & _).
    assert (held (heap w self)
            = task :: queued_tasks (set_task_queue rest (heap w1 self))
                   ++ in_flight (heap w1 self)) as Hbefore.
    { rewrite <- Hheld. unfold held, queued_tasks. by rewrite Hq1, Hq. }
    unfold offloadTask. rewrite !heap_with_node_eq.
    destruct (bool_decide _ && _) eqn:Hcond; cbn [fst].
    + apply andb_true_iff in Hcond as [Hbest%bool_decide_eq_true _].
      set (best := selectBestPeer (set_task_queue rest (heap w1 self))) in *.
      assert (is_Some (peer_loads_ (heap w self) !! best)) as Hknown.
      { rewrite <- Hpl1. unfold best, selectBestPeer in *.
        destruct (selectBestPeer_at_cases
                    (peer_loads_ (set_task_queue rest (heap w1 self)))
                    (getCurrentLoad (set_task_queue rest (heap w1 self))))
          as [[? _]|(load & Hload & _)]; [done|by exists load]. }
      destruct (Hview _ Hknown) as [a Ha].
      rewrite (sendMessage_known _ _ a) by (simpl; by rewrite Hnm).
      destruct (decide (self = a)) as [<-|Hne].
      * apply bind_pointwise_Permutation. intros b _.
        destruct (decide (self = b)) as [<-|Hneb].
        -- rewrite !heap_with_node_eq, Hbefore.
           unfold held, in_flight. simpl. rewrite omap_app. simpl.
           rewrite app_assoc. symmetry. apply Permutation_cons_append.
        -- by rewrite !heap_with_node_ne, Hheld.
      * apply (bind_two_points_Permutation _ _ _ self a);
          [done|done|by eapply Hreg|done| |].
        -- intros b Hb1 Hb2. by rewrite !heap_with_node_ne, Hheld.
        -- rewrite heap_with_node_ne, !heap_with_node_eq by done.
           rewrite heap_with_node_ne by done.
           rewrite Hbefore, <- (Hheld a).
           unfold held at 2, in_flight. simpl. rewrite omap_app. simpl.
           unfold held, in_flight. simpl.
           rewrite !app_assoc. symmetry.
           rewrite <- Permutation_cons_append. simpl.
           by rewrite <- !app_assoc.
    + apply bind_pointwise_Permutation. intros b _.
      destruct (decide (self = b)) as [<-|Hneb].
      * rewrite !heap_with_node_eq, Hbefore.
        unfold held, queued_tasks. simpl. rewrite omap_app. simpl.
        rewrite <- app_assoc. simpl. symmetry.
        apply Permutation_middle.
      * by rewrite !heap_with_node_ne, Hheld.
Qed.

(** X11 on the two-node store where node 0 sheds task 1 to node 1. *)
Lemma tick_conserves_tasks_witness :
  held_at [0; 1]%nat (loadMonitorTick 0%nat (two_node_world node_knows_1)).1
  ≡ₚ held_at [0; 1]%nat (two_node_world node_knows_1) ∧
  held_at [0; 1]%nat (loadMonitorTick 0%nat (two_node_world node_knows_1)).1
  = [task2; task3; task1].
Proof.
  split; [|vm_compute; reflexivity].
  apply (tick_conserves_tasks (two_node_world node_knows_1) 0%nat [0; 1]%nat).
  - compute_done.
  - apply list_elem_of_here.
  - intros k a [[_ ->]|[_ ->]]%two_node_world_registry.
    + apply list_elem_of_here.
    + apply list_elem_of_further, list_elem_of_here.
  - intros k Hk. simpl in Hk.
    destruct (decide (k = 1)) as [->|Hne].
    + exists 1%nat. apply two_node_world_registry. by right.
    + rewrite lookup_insert_ne, lookup_empty in Hk by done.
      by destruct Hk.
Defined.

Lemma gossip_sent_messages self d w w1 calls1 :
  gossip self d w = (w1, calls1) → sent_messages calls1 = [].
Proof.
  unfold gossip. by destruct (network_manager_ _); intros [= <- <-].
Qed.

(** A turn passes at most one message to [sendMessage]. *)
Lemma loadMonitorTick_sends_at_most_one self w :
  (length (sent_messages (loadMonitorTick self w).2) ≤ 1)%nat.
Proof.
  unfold loadMonitorTick. destruct (running_ (heap w self)); simpl; [|lia].
  destruct (gossip _ _ _) as [w1 calls1] eqn:Hg.
  pose proof (gossip_sent_messages _ _ _ _ _ Hg) as Hnone.
  destruct (decide _); [|simpl; rewrite Hnone; simpl; lia].
  destruct (task_queue_ (heap w1 self)) as [|[task|] rest]; cbn [non_null];
    [simpl; rewrite Hnone; simpl; lia| |simpl; rewrite Hnone; simpl; lia].
  unfold offloadTask. destruct (bool_decide _ && _); cbn [snd];
    unfold sent_messages in *; rewrite omap_app, Hnone; simpl; lia.
Qed.

(** X12. A turn of the load monitor passes at most one message to
    [sendMessage].  The message it passes is of type TASK_TRANSFER, names
    the node's own id as sender, carries the non-null task that was at the
    head of the queue, is addressed to a peer other than -1, and is the
    only message sent in the turn. *)
Theorem transfers_are_well_formed (w : World) (self : addr) :
  (length (sent_messages (loadMonitorTick self w).2) ≤ 1)%nat ∧
  (∀ m, CallSend m ∈ (loadMonitorTick self w).2 →
        Message.getType m = TASK_TRANSFER ∧
        Message.getSenderId m = id_ (heap w self) ∧
        Message.getReceiverId m ≠ -1 ∧
        head (task_queue_ (heap w self)) = Some (Message.getTask m) ∧
        non_null (Message.getTask m) = true ∧
        sent_messages (loadMonitorTick self w).2 = [m]).
Proof.
  split; [apply loadMonitorTick_sends_at_most_one|].
  intros m Hin.
  pose proof (loadMonitorTick_send_inv _ _ _ Hin)
    as (_ & _ & _ & task & rest & Hq & Hpeer & Hm).
  split_and!; try (by subst m).
  - subst m. by rewrite Hq.
  - pose proof (loadMonitorTick_sends_at_most_one self w) as Hlen.
    assert (m ∈ sent_messages (loadMonitorTick self w).2) as Hsent.
    { apply list_elem_of_omap. by exists (CallSend m). }
    destruct (sent_messages _) as [|m1 [|m2 ms]]; simpl in Hlen.
    + by apply elem_of_nil in Hsent.
    + by apply list_elem_of_singleton in Hsent as ->.
    + lia.
Qed.

Lemma transfers_are_well_formed_witness :
  sent_messages (loadMonitorTick 0%nat (two_node_world node_knows_1)).2
  = [Message.setTask (Some task1) (Message.new TASK_TRANSFER 0 1)].
Proof.
  destruct (transfers_are_well_formed (two_node_world node_knows_1) 0%nat)
    as [_ Hsend].
  apply (Hsend (Message.setTask (Some task1) (Message.new TASK_TRANSFER 0 1))).
  vm_compute. apply list_elem_of_further, list_elem_of_here.
Defined.

(** X13. Nothing in [offloadTask] compares the chosen peer with the node's
    own id.  As long as the node's id has no entry in its own load view, no
    transfer is addressed to its sender; once the node's id is the entry
    [selectBestPeer] returns, the turn sends a transfer whose receiver is
    its sender. *)
Theorem self_offload_depends_on_the_view
    (w : World) (self : addr) (task : Task.t)
    (rest : list (shared_ptr Task.t)) :
  (peer_loads_ (heap w self) !! id_ (heap w self) = None →
   ∀ m, CallSend m ∈ (loadMonitorTick self w).2 →
        Message.getReceiverId m ≠ Message.getSenderId m) ∧
  (running_ (heap w self) = true →
   task_queue_ (heap w self) = Some task :: rest →
   getCurrentLoad (heap w self) > load_threshold_ (heap w self) →
   network_manager_ (heap w self) = true →
   id_ (heap w self) ≠ -1 →
   selectBestPeer (set_task_queue rest (heap w self)) = id_ (heap w self) →
   CallSend (Message.setTask (Some task)
               (Message.new TASK_TRANSFER (id_ (heap w self))
                  (id_ (heap w self))))
   ∈ (loadMonitorTick self w).2).
Proof.
  split.
  - intros Hnone m Hin.
    pose proof (loadMonitorTick_send_inv _ _ _ Hin)
      as (_ & _ & _ & task' & rest' & _ & Hpeer & ->).
    simpl. intros Heq. unfold selectBestPeer in *.
    destruct (selectBestPeer_at_cases
                (peer_loads_ (set_task_queue rest' (heap w self)))
                (getCurrentLoad (set_task_queue rest' (heap w self))))
      as [[? _]|(load & Hload & _)]; [done|].
    rewrite Heq in Hload. simpl in Hload. congruence.
  - intros Hrun Hq Hgt Hnet Hid Hsel.
    destruct (gossip self (getCurrentLoad (heap w self)) w)
      as [w1 calls1] eqn:Hg.
    destruct (gossip_inv _ _ _ _ _ Hg) as (_ & Hinbox & _).
    pose proof (inbox_only_fields _ _ (Hinbox self))
      as (Hid1 & _ & _ & _ & _ & _ & _ & Hnet1).
    rewrite (loadMonitorTick_offload _ _ _ _ _ _ Hrun Hgt Hq Hg).
    rewrite offloadTask_sends; cycle 1.
    { rewrite heap_with_node_eq.
      rewrite (selectBestPeer_inbox_only (heap w self)) by done. congruence. }
    { rewrite heap_with_node_eq. simpl. congruence. }
    rewrite !heap_with_node_eq.
    rewrite !(selectBestPeer_inbox_only (heap w self) (heap w1 self)) by done.
    simpl id_. rewrite Hid1, Hsel. cbv zeta. simpl snd.
    apply elem_of_app. right. apply list_elem_of_here.
Qed.

Lemma self_offload_depends_on_the_view_witness :
  CallSend (Message.setTask (Some task1) (Message.new TASK_TRANSFER 0 0))
  ∈ (loadMonitorTick 0%nat (two_node_world node_knows_itself)).2.
Proof.
  destruct (self_offload_depends_on_the_view
              (two_node_world node_knows_itself) 0%nat task1
              [Some task2; Some task3]) as [_ Hself].
  apply Hself; vm_compute; first [reflexivity|discriminate].
Defined.

(** ** From one node's turn to another node's pump *)

Lemma pumpAll_inbox_only n n' :
  inbox_only n n' →
  running_ n = true →
  pumpAll n'
  = foldl (λ n0 m, dispatchMessage m n0) (set_message_queue [] n)
      (message_queue_ n').
Proof.
  intros Hn Hrun. rewrite pumpAll_foldl.
  - f_equal. unfold inbox_only in Hn. by rewrite Hn.
  - by destruct (inbox_only_fields _ _ Hn) as (_ & _ & _ & _ & _ & _ & -> & _).
Qed.

Lemma task_queue_dispatch m n :
  task_queue_ (dispatchMessage m n)
  = task_queue_ n ++ (Some <$> option_list (transferred_task m)).
Proof.
  unfold dispatchMessage, transferred_task.
  destruct (Message.getType m); simpl; rewrite ?app_nil_r; try done.
  - destruct (Message.getTask m) as [t|]; simpl; [done|by rewrite app_nil_r].
  - unfold addPeer. by destruct (decide _).
Qed.

Lemma task_queue_foldl_dispatch msgs n :
  task_queue_ (foldl (λ n0 m, dispatchMessage m n0) n msgs)
  = task_queue_ n ++ (Some <$> omap transferred_task msgs).
Proof.
  revert n. induction msgs as [|m msgs IH]; intros n; simpl.
  - by rewrite app_nil_r.
  - rewrite IH, task_queue_dispatch, <- app_assoc. f_equal.
    destruct (transferred_task m); simpl; done.
Qed.

Lemma peer_loads_foldl_transfers msgs n :
  Forall (λ m, Message.getType m = TASK_TRANSFER) msgs →
  peer_loads_ (foldl (λ n0 m, dispatchMessage m n0) n msgs) = peer_loads_ n.
Proof.
  intros Hall. revert n. induction Hall as [|m msgs Hm _ IH]; intros n; [done|].
  simpl. rewrite IH. unfold dispatchMessage. rewrite Hm.
  by destruct (non_null _).
Qed.

Lemma peer_loads_foldl_updates k m n :
  Message.getType m = LOAD_UPDATE →
  peer_loads_ (foldl (λ n0 m0, dispatchMessage m0 n0) n (replicate (S k) m))
    !! Message.getSenderId m
  = Some (Message.getLoadValue m).
Proof.
  intros Hm. rewrite replicate_S_end, foldl_app. simpl.
  unfold dispatchMessage at 1. rewrite Hm. simpl. apply lookup_insert_eq.
Qed.

(** What a turn of a running node with a network does to another node: it
    appends one copy of the load update per registered id of that node
    other than the sender's id, then at most a transfer. *)
Lemma loadMonitorTick_inbox_other self w a :
  running_ (heap w self) = true →
  network_manager_ (heap w self) = true →
  a ≠ self →
  ∃ tail,
    inbox_only (heap w a) (heap (loadMonitorTick self w).1 a) ∧
    message_queue_ (heap (loadMonitorTick self w).1 a)
    = message_queue_ (heap w a)
      ++ replicate
           (length (filter (λ e, e.2 = a)
                      (broadcast_targets (id_ (heap w self)) (network w))))
           (Message.setLoadValue (getCurrentLoad (heap w self))
              (Message.new LOAD_UPDATE (id_ (heap w self)) (-1)))
      ++ tail ∧
    Forall (λ m, Message.getType m = TASK_TRANSFER) tail.
Proof.
  intros Hrun Hnet Hne.
  set (lm := Message.setLoadValue (getCurrentLoad (heap w self))
               (Message.new LOAD_UPDATE (id_ (heap w self)) (-1))).
  set (w1 := broadcastMessage (id_ (heap w self)) lm w).
  assert (gossip self (getCurrentLoad (heap w self)) w
          = (w1, [CallBroadcast (id_ (heap w self)) lm])) as Hg.
  { unfold gossip. by rewrite Hnet. }
  assert (inbox_only (heap w a) (heap w1 a)) as Hin1
    by apply broadcastMessage_inbox_only.
  assert (message_queue_ (heap w1 a)
          = message_queue_ (heap w a)
            ++ replicate
                 (length (filter (λ e, e.2 = a)
                    (broadcast_targets (id_ (heap w self)) (network w)))) lm)
    as Hmq1.
  { unfold w1. by rewrite broadcastMessage_heap, iter_handleMessage_inbox. }
  assert (∀ w2, heap w2 a = heap w1 a →
            ∃ tail,
              inbox_only (heap w a) (heap w2 a) ∧
              message_queue_ (heap w2 a)
              = message_queue_ (heap w a)
                ++ replicate
                     (length (filter (λ e, e.2 = a)
                        (broadcast_targets (id_ (heap w self)) (network w))))
                     lm ++ tail ∧
              Forall (λ m, Message.getType m = TASK_TRANSFER) tail) as Hsame.
  { intros w2 ->. exists []. by rewrite app_nil_r. }
  unfold loadMonitorTick. rewrite Hrun. simpl. rewrite Hg.
  destruct (decide _); [|by apply Hsame].
  destruct (task_queue_ (heap w1 self)) as [|[task|] rest]; cbn [non_null].
  - by apply Hsame.
  - destruct (offloadTask _ _ _) as [w3 calls3] eqn:Hoff. cbn [fst].
    unfold offloadTask in Hoff.
    destruct (bool_decide _ && _); injection Hoff as <- <-.
    + unfold sendMessage. destruct (_ !! _) as [b|].
      * destruct (decide (b = a)) as [->|Hb].
        -- eexists [_]. rewrite heap_with_node_eq, heap_with_node_ne by done.
           split_and!.
           ++ by apply inbox_only_handleMessage.
           ++ simpl. by rewrite Hmq1, <- app_assoc.
           ++ by repeat constructor.
        -- apply Hsame. by rewrite !heap_with_node_ne.
      * apply Hsame. by rewrite heap_with_node_ne.
    + apply Hsame. by rewrite !heap_with_node_ne.
  - cbn [fst]. apply Hsame. by rewrite heap_with_node_ne.
Qed.

(** X14. Gossip round trip: after a turn of a running node with a network,
    every other running node that is registered under an id different from
    the node's id has, once its pump has handled its inbox, the load the
    node sampled as its view of the node, whatever its inbox held
    before. *)
Theorem gossip_updates_peer_views (w : World) (self a : addr) (k : Z) :
  running_ (heap w self) = true →
  network_manager_ (heap w self) = true →
  nodes_ (network w) !! k = Some a →
  k ≠ id_ (heap w self) →
  a ≠ self →
  running_ (heap w a) = true →
  peer_loads_ (pumpAll (heap (loadMonitorTick self w).1 a))
    !! id_ (heap w self)
  = Some (getCurrentLoad (heap w self)).
Proof.
  intros Hrun Hnet Hk Hkid Hne Hrun_a.
  destruct (loadMonitorTick_inbox_other self w a Hrun Hnet Hne)
    as (tail & Hinbox & Hmq & Htail).
  rewrite (pumpAll_inbox_only _ _ Hinbox) by done.
  rewrite Hmq, !foldl_app.
  rewrite peer_loads_foldl_transfers by done.
  destruct (length _) as [|j] eqn:Hlen.
  - exfalso.
    assert ((k, a) ∈ filter (λ e : Z * addr, e.2 = a)
                       (broadcast_targets (id_ (heap w self)) (network w)))
      as Hin.
    { apply list_elem_of_filter. split; [done|].
      by apply elem_of_broadcast_targets. }
    apply length_zero_iff_nil in Hlen. rewrite Hlen in Hin.
    by apply elem_of_nil in Hin.
  - by apply (peer_loads_foldl_updates j
                (Message.setLoadValue (getCurrentLoad (heap w self))
                   (Message.new LOAD_UPDATE (id_ (heap w self)) (-1)))).
Qed.

Lemma gossip_updates_peer_views_witness :
  peer_loads_
    (pumpAll
       (heap (loadMonitorTick 0%nat (two_running_world node_loaded)).1 1%nat))
    !! id_ (heap (two_running_world node_loaded) 0%nat)
  = Some (getCurrentLoad (heap (two_running_world node_loaded) 0%nat)).
Proof.
  apply (gossip_updates_peer_views (two_running_world node_loaded)
           0%nat 1%nat 1);
    vm_compute; first [reflexivity|discriminate].
Defined.

(** X15. A shed task arrives: when the peer [selectBestPeer] returns is
    registered at another node, the turn leaves the sender's queue without
    its head and the transfer is the last message in the receiver's inbox;
    when the receiver runs, once its pump has handled the inbox the task is
    at the tail of the receiver's queue, behind everything the inbox
    carried before. *)
Theorem offload_reaches_the_receiver
    (w : World) (self a : addr) (task : Task.t)
    (rest : list (shared_ptr Task.t)) :
  running_ (heap w self) = true →
  task_queue_ (heap w self) = Some task :: rest →
  getCurrentLoad (heap w self) > load_threshold_ (heap w self) →
  network_manager_ (heap w self) = true →
  selectBestPeer (set_task_queue rest (heap w self)) ≠ -1 →
  nodes_ (network w) !! selectBestPeer (set_task_queue rest (heap w self))
  = Some a →
  a ≠ self →
  task_queue_ (heap (loadMonitorTick self w).1 self) = rest ∧
  last (message_queue_ (heap (loadMonitorTick self w).1 a))
  = Some (Message.setTask (Some task)
            (Message.new TASK_TRANSFER (id_ (heap w self))
               (selectBestPeer (set_task_queue rest (heap w self))))) ∧
  (running_ (heap w a) = true →
   task_queue_ (pumpAll (heap (loadMonitorTick self w).1 a))
   = task_queue_ (pumpAll (heap w a)) ++ [Some task]).
Proof.
  intros Hrun Hq Hgt Hnet Hpeer Hreg Hne.
  destruct (gossip self (getCurrentLoad (heap w self)) w)
    as [w1 calls1] eqn:Hg.
  destruct (gossip_inv _ _ _ _ _ Hg) as (Hnm & Hinbox & _ & Hmsgs).
  pose proof (inbox_only_fields _ _ (Hinbox self))
    as (Hid & _ & _ & _ & _ & _ & _ & Hnet1).
  rewrite (loadMonitorTick_offload _ _ _ _ _ _ Hrun Hgt Hq Hg).
  rewrite offloadTask_sends; cycle 1.
  { rewrite heap_with_node_eq.
    by rewrite (selectBestPeer_inbox_only (heap w self)). }
  { rewrite heap_with_node_eq. simpl. congruence. }
  rewrite !heap_with_node_eq.
  rewrite !(selectBestPeer_inbox_only (heap w self) (heap w1 self)) by done.
  simpl id_. rewrite Hid. cbv zeta. simpl fst.
  rewrite (sendMessage_known _ _ a) by (simpl; by rewrite Hnm).
  rewrite heap_with_node_ne, heap_with_node_eq by done.
  rewrite heap_with_node_eq, heap_with_node_ne by done.
  destruct (Hmsgs a) as [j Hj]. split_and!.
  - done.
  - simpl. by rewrite last_snoc.
  - intros Hrun_a.
    rewrite (pumpAll_inbox_only (heap w a));
      [|apply inbox_only_handleMessage, Hinbox|done].
    rewrite pumpAll_foldl by done. simpl. rewrite Hj.
    rewrite !task_queue_foldl_dispatch, !omap_app.
    rewrite omap_replicate_None by done. simpl.
    rewrite !fmap_app. simpl. by rewrite <- !app_assoc.
Qed.

Lemma offload_reaches_the_receiver_witness :
  task_queue_
    (pumpAll (heap (loadMonitorTick 0%nat (two_running_world node_knows_1)).1
                1%nat))
  = task_queue_ (pumpAll (heap (two_running_world node_knows_1) 1%nat))
    ++ [Some task1] ∧
  task_queue_
    (pumpAll (heap (loadMonitorTick 0%nat (two_running_world node_knows_1)).1
                1%nat))
  = [Some task1].
Proof.
  split; [|vm_compute; reflexivity].
  destruct (offload_reaches_the_receiver (two_running_world node_knows_1)
              0%nat 1%nat task1 [Some task2; Some task3])
    as (_ & _ & Harrives); [vm_compute; first [reflexivity|discriminate] ..|].
  apply Harrives. vm_compute. reflexivity.
Defined.

(** ** main: the network it builds *)

(** A fold of steps that each rewrite the node at their own address. *)
Lemma foldl_local_updates (F : nat → World → World)
    (g : nat → PeerNode → PeerNode) :
  (∀ i w, heap (F i w) i = g i (heap w i)) →
  (∀ i w a, a ≠ i → heap (F i w) a = heap w a) →
  ∀ (l : list nat) w a, NoDup l →
    heap (foldl (λ w' i, F i w') w l) a
    = if decide (a ∈ l) then g a (heap w a) else heap w a.
Proof.
  intros Hat Hother l. induction l as [|i l IH]; intros w a Hnd.
  { cbn [foldl]. rewrite decide_False; [done|]. apply not_elem_of_nil. }
  apply NoDup_cons in Hnd as [Hi Hnd]. cbn [foldl]. rewrite IH by done.
  destruct (decide (a = i)) as [->|Hne].
  - rewrite (decide_False (P := i ∈ l)) by done.
    rewrite (decide_True (P := i ∈ i :: l)) by apply list_elem_of_here.
    apply Hat.
  - rewrite Hother by done. destruct (decide (a ∈ l)) as [Hin|Hnin].
    + rewrite (decide_True (P := a ∈ i :: l)); [done|].
      by apply list_elem_of_further.
    + rewrite (decide_False (P := a ∈ i :: l)); [done|].
      intros [?|?]%elem_of_cons; done.
Qed.

Lemma foldl_keeps_network (F : nat → World → World) :
  (∀ i w, network (F i w) = network w) →
  ∀ (l : list nat) w, network (foldl (λ w' i, F i w') w l) = network w.
Proof.
  intros HF l. induction l as [|i l IH]; intros w; [done|].
  simpl. by rewrite IH, HF.
Qed.

Lemma create_nodes_registry num_nodes load_threshold w k a :
  nodes_ (network w) = ∅ →
  nodes_ (network (create_nodes num_nodes load_threshold w)) !! k = Some a
  ↔ k = Z.of_nat a ∧ (a < num_nodes)%nat.
Proof.
  intros Hempty. unfold create_nodes.
  induction num_nodes as [|N IH].
  { simpl. rewrite Hempty, lookup_empty. split; [done|]. intros [_ ?]. lia. }
  rewrite seq_S, foldl_app. simpl.
  destruct (decide (k = Z.of_nat N)) as [->|Hne].
  - rewrite lookup_insert_eq. split.
    + intros [= <-]. split; [done|lia].
    + intros [Heq _]. f_equal. lia.
  - rewrite lookup_insert_ne by done. rewrite IH. split.
    + intros [-> ?]. split; [done|lia].
    + intros [-> ?]. split; [done|]. lia.
Qed.

Lemma connect_node_peers i (js : list nat) n :
  NoDup js →
  (∀ j, j ∈ js → Z.of_nat j ∉ peers_ n) →
  foldl (λ n' j, if decide (i ≠ j) then addPeer (Z.of_nat j) n' else n') n js
  = set_peers (peers_ n ++ (Z.of_nat <$> filter (λ j, j ≠ i) js)) n.
Proof.
  revert n. induction js as [|j js IH]; intros n Hnd Hfresh.
  { simpl. rewrite app_nil_r. by destruct n. }
  apply NoDup_cons in Hnd as [Hj Hnd]. simpl.
  destruct (decide (i ≠ j)) as [Hij|Hij].
  - rewrite filter_cons_True by done.
    rewrite addPeer_absent by apply Hfresh, list_elem_of_here.
    rewrite IH; [|done|].
    + simpl. rewrite <- app_assoc. done.
    + intros j' Hj'. simpl. rewrite elem_of_app, list_elem_of_singleton.
      intros [Hin|Heq].
      * apply (Hfresh j'); [by apply list_elem_of_further|done].
      * apply Nat2Z.inj in Heq. by subst j'.
  - rewrite filter_cons_False by (intros ?; apply Hij; done).
    apply IH; [done|]. intros j' Hj'. by apply Hfresh, list_elem_of_further.
Qed.

Lemma connect_node_heap num_nodes i w a :
  heap (connect_node num_nodes i w) a
  = if decide (a = i)
    then foldl (λ n' j, if decide (i ≠ j) then addPeer (Z.of_nat j) n' else n')
           (heap w i) (seq 0 num_nodes)
    else heap w a.
Proof.
  unfold connect_node. generalize (seq 0 num_nodes) as js. intros js.
  revert w. induction js as [|j js IH]; intros w; simpl.
  { by destruct (decide (a = i)) as [->|]. }
  rewrite IH. destruct (decide (i ≠ j)).
  - destruct (decide (a = i)) as [->|Hne].
    + by rewrite heap_with_node_eq.
    + by rewrite heap_with_node_ne.
  - done.
Qed.

Lemma connect_node_network num_nodes i w :
  network (connect_node num_nodes i w) = network w.
Proof.
  unfold connect_node. generalize (seq 0 num_nodes) as js. intros js.
  revert w. induction js as [|j js IH]; intros w; simpl; [done|].
  rewrite IH. by destruct (decide _).
Qed.

(** The store [main] has built when all nodes run. *)
Lemma main_setup_heap
    (num_nodes : nat) (load_threshold : Z) (h0 : addr → PeerNode) (a : addr) :
  heap (main_setup num_nodes load_threshold h0) a
  = if decide (a ∈ seq 0 num_nodes)
    then set_peers (Z.of_nat <$> filter (λ j, j ≠ a) (seq 0 num_nodes))
           (set_running true (PeerNode_new (Z.of_nat a) load_threshold true))
    else h0 a.
Proof.
  unfold main_setup, start_all, connect_mesh.
  set (w0 := {| network := {| nodes_ := ∅ |}; heap := h0 |}).
  assert (∀ b, heap (create_nodes num_nodes load_threshold w0) b
               = if decide (b ∈ seq 0 num_nodes)
                 then PeerNode_new (Z.of_nat b) load_threshold true
                 else h0 b) as Hcreate.
  { intros b. unfold create_nodes.
    apply (foldl_local_updates
             (λ i w, registerNode (Z.of_nat i) i
                       (with_node i
                          (λ _, PeerNode_new (Z.of_nat i) load_threshold true) w))
             (λ i _, PeerNode_new (Z.of_nat i) load_threshold true)).
    - intros j w. simpl. apply fn_lookup_insert.
    - intros j w c Hne. simpl. by apply fn_lookup_insert_ne.
    - apply NoDup_seq. }
  rewrite (foldl_local_updates (λ j w, with_node j start w) (λ _, start))
    by (first [intros; apply heap_with_node_eq
              |intros; by apply heap_with_node_ne
              |apply NoDup_seq]).
  rewrite (foldl_local_updates (connect_node num_nodes)
             (λ i n, foldl (λ n' j, if decide (i ≠ j)
                                    then addPeer (Z.of_nat j) n' else n')
                       n (seq 0 num_nodes)));
    [| |intros j w b Hne; rewrite connect_node_heap; by rewrite decide_False
     |apply NoDup_seq].
  2:{ intros j w. rewrite connect_node_heap. by rewrite decide_True. }
  rewrite Hcreate. destruct (decide (a ∈ seq 0 num_nodes)); [|done].
  rewrite connect_node_peers; [done|apply NoDup_seq|].
  intros j _. simpl. apply not_elem_of_nil.
Qed.

(** The registry [main] has built. *)
Lemma main_setup_registry
    (num_nodes : nat) (load_threshold : Z) (h0 : addr → PeerNode) k a :
  nodes_ (network (main_setup num_nodes load_threshold h0)) !! k = Some a
  ↔ k = Z.of_nat a ∧ (a < num_nodes)%nat.
Proof.
  unfold main_setup, start_all, connect_mesh.
  rewrite (foldl_keeps_network (λ j w, with_node j start w)) by done.
  rewrite (foldl_keeps_network (connect_node num_nodes))
    by apply connect_node_network.
  by apply create_nodes_registry.
Qed.

(** X16. The network [main] builds, for any number of nodes: node [i] has
    id [i], the configured threshold, is running, and its peer list is
    every other id in ascending order, without its own id and without
    duplicates; nothing is queued or known yet; id [i] is registered to
    node [i] and nothing else is registered; the store beyond the nodes is
    untouched. *)
Theorem main_builds_a_full_mesh
    (num_nodes : nat) (load_threshold : Z) (h0 : addr → PeerNode) (i : nat) :
  let w := main_setup num_nodes load_threshold h0 in
  ((i < num_nodes)%nat →
   heap w i
   = set_peers (Z.of_nat <$> filter (λ j, j ≠ i) (seq 0 num_nodes))
       (set_running true (PeerNode_new (Z.of_nat i) load_threshold true)) ∧
   (id_ (heap w i) ∉ peers_ (heap w i)) ∧
   NoDup (peers_ (heap w i)) ∧
   (∀ j, (j < num_nodes)%nat → j ≠ i → Z.of_nat j ∈ peers_ (heap w i))) ∧
  ((num_nodes ≤ i)%nat → heap w i = h0 i) ∧
  (∀ k a, nodes_ (network w) !! k = Some a
          ↔ k = Z.of_nat a ∧ (a < num_nodes)%nat).
Proof.
  intros w. subst w. split_and!.
  - intros Hi. rewrite main_setup_heap.
    rewrite decide_True by (apply elem_of_seq; lia).
    split_and!; [done| | |]; simpl.
    + intros (j & Hj & [Hne _]%list_elem_of_filter)%list_elem_of_fmap.
      apply Nat2Z.inj in Hj. by subst j.
    + apply NoDup_fmap_2; [apply Nat2Z.inj'|].
      apply NoDup_filter, NoDup_seq.
    + intros j Hj Hne. apply list_elem_of_fmap. exists j. split; [done|].
      apply list_elem_of_filter. split; [done|]. apply elem_of_seq. lia.
  - intros Hi. rewrite main_setup_heap. rewrite decide_False; [done|].
    rewrite elem_of_seq. lia.
  - intros k a. apply main_setup_registry.
Qed.

(** X16 for node 2 of the five nodes [main] creates. *)
Lemma main_builds_a_full_mesh_witness :
  peers_ (heap (main_setup NUM_NODES LOAD_THRESHOLD
                  (λ _, PeerNode_new 0 0 false)) 2%nat)
  = [0; 1; 3; 4].
Proof.
  destruct (main_builds_a_full_mesh NUM_NODES LOAD_THRESHOLD
              (λ _, PeerNode_new 0 0 false) 2%nat) as [Hnode _].
  destruct Hnode as [-> _]; [unfold NUM_NODES; lia|].
  vm_compute. reflexivity.
Defined.

(** X17. In the network [main] builds, a broadcast from node [i] puts the
    message exactly once into the inbox of every other node and leaves the
    inbox of node [i] empty. *)
Theorem broadcast_in_main_network
    (num_nodes : nat) (load_threshold : Z) (h0 : addr → PeerNode)
    (i j : nat) (m : Message.t) :
  (i < num_nodes)%nat →
  (j < num_nodes)%nat →
  message_queue_
    (heap (broadcastMessage (Z.of_nat i) m
             (main_setup num_nodes load_threshold h0)) j)
  = if decide (j = i) then [] else [m].
Proof.
  intros Hi Hj.
  rewrite broadcastMessage_heap, iter_handleMessage_inbox, main_setup_heap.
  rewrite decide_True by (apply elem_of_seq; lia). simpl.
  destruct (decide (j = i)) as [->|Hne].
  - rewrite broadcast_targets_none; [done|].
    intros k [-> _]%main_setup_registry. done.
  - rewrite (broadcast_targets_once _ _ (Z.of_nat j)); [done| | |].
    + by apply main_setup_registry.
    + intros Heq%Nat2Z.inj. done.
    + intros k' [-> _]%main_setup_registry _. done.
Qed.

Lemma broadcast_in_main_network_witness :
  message_queue_
    (heap (broadcastMessage (Z.of_nat 0) (Message.new LOAD_UPDATE 0 (-1))
             (main_setup NUM_NODES LOAD_THRESHOLD
                (λ _, PeerNode_new 0 0 false))) 3%nat)
  = [Message.new LOAD_UPDATE 0 (-1)].
Proof.
  apply (broadcast_in_main_network NUM_NODES LOAD_THRESHOLD
           (λ _, PeerNode_new 0 0 false) 0%nat 3%nat
           (Message.new LOAD_UPDATE 0 (-1)));
    unfold NUM_NODES; lia.
Defined.

(** ** toString *)

Example toString_load_update :
  toString (Message.setLoadValue 5 (Message.new LOAD_UPDATE 2 (-1)))
  = "Message[LOAD_UPDATE from=2 to=-1 load=5]".
Proof. vm_compute. reflexivity. Qed.

Example toString_task_transfer :
  toString (Message.setTask (Some (Task.new_at 42 100 0))
              (Message.new TASK_TRANSFER 1 3))
  = "Message[TASK_TRANSFER from=1 to=3 task_id=42]".
Proof. vm_compute. reflexivity. Qed.

(** X18. Unlike the accessors, [toString] looks at the type: the load is
    printed for a LOAD_UPDATE only and the task id for a TASK_TRANSFER with
    a task only, so a load stored in a message of another type, or a task
    stored in a message that is no transfer, does not show; a transfer
    without a task prints no task id; and messages of different types never
    print alike. *)
Theorem toString_checks_the_variant
    (m m' : Message.t) (load : Z) (task : shared_ptr Task.t) :
  (Message.getType m ≠ LOAD_UPDATE →
   toString (Message.setLoadValue load m) = toString m) ∧
  (Message.getType m ≠ TASK_TRANSFER →
   toString (Message.setTask task m) = toString m) ∧
  (Message.getType m = TASK_TRANSFER →
   toString (Message.setTask None m)
   = "Message[TASK_TRANSFER from=" +:+ pretty (Message.getSenderId m)
     +:+ " to=" +:+ pretty (Message.getReceiverId m) +:+ "]") ∧
  (toString m = toString m' → Message.getType m = Message.getType m').
Proof.
  destruct m as [ty s r l t], m' as [ty' s' r' l' t'].
  unfold Message.getType, Message.getSenderId, Message.getReceiverId.
  simpl. split_and!.
  - intros Hty. unfold toString, toString_extras. simpl. by destruct ty.
  - intros Hty. unfold toString, toString_extras. simpl. by destruct ty.
  - intros ->. done.
  - unfold toString. cbn [Message.type_].
    destruct ty, ty'; cbn [type_name String.append]; intros Heq;
      first [done|congruence].
Qed.

Lemma toString_checks_the_variant_witness :
  toString (Message.setLoadValue 9 (Message.new TASK_REQUEST 1 2))
  = toString (Message.new TASK_REQUEST 1 2).
Proof.
  apply (toString_checks_the_variant (Message.new TASK_REQUEST 1 2)
           (Message.new TASK_REQUEST 1 2) 9 None).
  discriminate.
Defined.

(** ** What a transfer requires, and a node without a network *)

(** X19. The depth [selectBestPeer] compares with is read after the head
    has been popped: every transfer goes to a peer whose recorded load is at
    least two below the load the node sampled at the start of the turn, and
    no entry of the view is recorded lower than that peer. *)
Theorem transfer_needs_a_gap_of_two (w : World) (self : addr) (m : Message.t) :
  Z.of_nat (length (task_queue_ (heap w self))) < 2 ^ 31 →
  CallSend m ∈ (loadMonitorTick self w).2 →
  ∃ load,
    peer_loads_ (heap w self) !! Message.getReceiverId m = Some load ∧
    load + 1 < getCurrentLoad (heap w self) ∧
    (∀ k v, peer_loads_ (heap w self) !! k = Some v → load ≤ v).
Proof.
  intros Hlen Hin.
  pose proof (loadMonitorTick_send_inv _ _ _ Hin)
    as (_ & _ & _ & task & rest & Hq & Hpeer & ->).
  unfold selectBestPeer in *. simpl peer_loads_ in *.
  destruct (selectBestPeer_at_cases (peer_loads_ (heap w self))
              (getCurrentLoad (set_task_queue rest (heap w self))))
    as [[? _]|(load & Hload & Hlt & Hmin & _)]; [done|].
  exists load. split_and!; [done| |done].
  unfold getCurrentLoad in *. rewrite Hq in *. simpl in Hlen, Hlt |- *.
  rewrite static_cast_int_small in Hlt by lia.
  rewrite static_cast_int_small by (simpl; lia). simpl. lia.
Qed.

Lemma transfer_needs_a_gap_of_two_witness :
  ∃ load,
    peer_loads_ (heap (two_node_world node_knows_1) 0%nat)
      !! Message.getReceiverId
           (Message.setTask (Some task1) (Message.new TASK_TRANSFER 0 1))
    = Some load ∧
    load + 1 < getCurrentLoad (heap (two_node_world node_knows_1) 0%nat) ∧
    (∀ k v, peer_loads_ (heap (two_node_world node_knows_1) 0%nat) !! k
            = Some v → load ≤ v).
Proof.
  apply (transfer_needs_a_gap_of_two (two_node_world node_knows_1) 0%nat
           (Message.setTask (Some task1) (Message.new TASK_TRANSFER 0 1))).
  - vm_compute. reflexivity.
  - vm_compute. apply list_elem_of_further, list_elem_of_here.
Defined.

(** X20. A node that was constructed without a NetworkManager keeps to
    itself: a turn of its load monitor makes no call, changes no other
    node, and on the node changes the task queue only, which keeps the same
    non-null tasks (a task that cannot be shed goes from the head to the
    tail). *)
Theorem turn_without_network_is_local (w : World) (self : addr) :
  network_manager_ (heap w self) = false →
  (loadMonitorTick self w).2 = [] ∧
  (∀ a, a ≠ self → heap (loadMonitorTick self w).1 a = heap w a) ∧
  heap (loadMonitorTick self w).1 self
  = set_task_queue (task_queue_ (heap (loadMonitorTick self w).1 self))
      (heap w self) ∧
  queued_tasks (heap (loadMonitorTick self w).1 self)
  ≡ₚ queued_tasks (heap w self).
Proof.
  intros Hnet. unfold loadMonitorTick, gossip. rewrite Hnet.
  assert (heap w self = set_task_queue (task_queue_ (heap w self)) (heap w self))
    as Hsame by (by destruct (heap w self)).
  destruct (running_ (heap w self)); simpl; [|done].
  destruct (decide _); [|done].
  destruct (task_queue_ (heap w self)) as [|[task|] rest] eqn:Hq;
    cbn [non_null];
    [cbn [fst snd]; split_and!; [done|done|by rewrite Hq|done]| |].
  - rewrite offloadTask_reinserts
      by (right; by rewrite heap_with_node_eq).
    cbn [fst snd]. split_and!; [done| | |].
    + intros a Hne. by rewrite !heap_with_node_ne.
    + by rewrite !heap_with_node_eq.
    + rewrite !heap_with_node_eq. unfold queued_tasks. simpl.
      rewrite omap_app, Hq. simpl. symmetry. apply Permutation_cons_append.
  - cbn [fst snd]. split_and!; [done| | |].
    + intros a Hne. by rewrite heap_with_node_ne.
    + by rewrite heap_with_node_eq.
    + rewrite heap_with_node_eq. unfold queued_tasks. simpl. by rewrite Hq.
Qed.

Lemma turn_without_network_is_local_witness :
  (loadMonitorTick 0%nat (two_node_world node_offline)).2 = [] ∧
  task_queue_ (heap (loadMonitorTick 0%nat (two_node_world node_offline)).1 0%nat)
  = [Some task2; Some task3; Some task1].
Proof.
  split; [|vm_compute; reflexivity].
  apply (turn_without_network_is_local (two_node_world node_offline) 0%nat).
  vm_compute. reflexivity.
Defined.
